(** * NodeConductor: cost tracking, price estimates, invitations and
      security-group synchronisation

    A shallow embedding of the parts of the repository that its specification
    talks about:

    - [CostTracking]: [nodeconductor/cost_tracking/__init__.py], the register of
      cost-tracking backends, the price map and the monthly cost estimate;
    - [PriceEstimates]: migration [0024_auto_20160818_1003] of the cost-tracking
      application and the uniqueness constraint it declares;
    - [Invitations]: [InvitationSerializer.validate] and [create] of
      [nodeconductor/users/serializers.py];
    - [SecurityGroups]: the security-group API that
      [nodeconductor/iaas/tests/test_security_groups.py] exercises;
    - [Helpers]: [_cached_class_property] of
      [nodeconductor/structure/tests/helpers.py];
    - [Views]: the permission checks of the price editing views of
      [nodeconductor/cost_tracking/views.py].

    Python exceptions are values of [exn]; a call that can raise returns a
    [result]. *)

From stdpp Require Import gmap strings list fin_maps.
From Stdlib Require Import ZArith DecimalString DecimalZ.

Open Scope string_scope.
Open Scope list_scope.

(** ** Exceptions and results *)

Inductive exn :=
  | ServiceBackendNotImplemented
  | NotImplementedError
  | KeyError (key : string)
  | ValidationError (field : option string) (message : string)
  | IntegrityError
  | PyError (name : string).

Inductive result (A : Type) :=
  | Ok (a : A)
  | Raise (e : exn).
Arguments Ok {A} a.
Arguments Raise {A} e.

#[global] Instance result_ret : MRet result := λ A a, Ok a.

#[global] Instance result_bind : MBind result := λ A B k r,
  match r with
  | Ok a => k a
  | Raise e => Raise e
  end.

#[global] Instance result_fmap : FMap result := λ A B f r,
  match r with
  | Ok a => Ok (f a)
  | Raise e => Raise e
  end.

Module CostTracking.

(** *** What the module reads of a resource *)

Definition ContentType := nat.
Definition Service := nat.

(** [resource._meta] *)
Record Meta := { app_label : string }.

Record ServiceProjectLink := { service : Service }.

Record Resource := {
  _meta : Meta;
  (** the content type of the resource's model,
      [ContentType.objects.get_for_model(resource)] *)
  get_for_model : ContentType;
  service_project_link : ServiceProjectLink;
  resource_name : string
}.

(** *** The register of connected plugins ([CostTrackingRegister]) *)

Section Register.

(** A backend is a class object; the register neither calls nor inspects it. *)
Context {Backend : Type}.

(** [_register = {}], a dict from application label to backend. *)
Definition CostTrackingRegister := gmap string Backend.

Definition _register_initial : gmap string Backend := ∅.

(** [cls._register[app_label] = backend] *)
Definition register (app_label : string) (backend : Backend)
    (reg : gmap string Backend) : gmap string Backend :=
  <[app_label := backend]> reg.

(** [cls._register.values()] *)
Definition get_registered_backends (reg : gmap string Backend) : list Backend :=
  (map_to_list reg).*2.

(** [try: return cls._register[resource._meta.app_label]
     except KeyError: raise ServiceBackendNotImplemented] *)
Definition get_resource_backend (reg : gmap string Backend) (resource : Resource)
    : result Backend :=
  match reg !! app_label (_meta resource) with
  | Some backend => Ok backend
  | None => Raise ServiceBackendNotImplemented
  end.

(** The register after the applications have connected themselves, one
    [register] call each, in the order of [calls]. *)
Definition registered (calls : list (string * Backend)) : gmap string Backend :=
  foldl (λ reg call, register call.1 call.2 reg) _register_initial calls.

(** The backend most recently registered under [label], if any. *)
Definition last_registered (label : string) (calls : list (string * Backend))
    : option Backend :=
  snd <$> last (filter (λ call, call.1 = label) calls).

End Register.

(** *** Python values the estimate computes with *)

(** [decimal.Decimal]: the operations the module uses. Arithmetic answers
    under the thread's decimal context, so it may round, and it raises
    where the context traps (an invalid operation, an overflow); nothing is
    assumed about either. *)
Class DecimalOps (D : Type) := {
  (** [Decimal(n)] of an int, as [int + Decimal] converts its left operand *)
  Decimal_of_int : Z → D;
  (** [Decimal(s)] of a str *)
  Decimal_of_str : string → result D;
  (** [a + b] *)
  dec_add : D → D → result D;
  (** [a * b] *)
  dec_mul : D → D → result D
}.

(** The type of an item's usage count, with the built-in
    [format(value, format_spec)]. *)
Class NumberOps (Q : Type) := {
  format : Q → string → result string
}.

(** The type of a stored [monthly_rate], with [Decimal(val)] of it. *)
Class RateOps (R D : Type) := {
  Decimal : R → D
}.

(** [monthly_cost]: the int [0] it starts as, or a Decimal. *)
Inductive number (D : Type) :=
  | PyInt (z : Z)
  | PyDecimal (d : D).
Arguments PyInt {D} z.
Arguments PyDecimal {D} d.

(** [monthly_cost += d]: [int.__add__] declines a Decimal, so
    [Decimal.__radd__], which is [__add__], converts the int. *)
Definition iadd `{DecimalOps D} (monthly_cost : number D) (d : D) : result (number D) :=
  match monthly_cost with
  | PyInt z => PyDecimal <$> dec_add d (Decimal_of_int z)
  | PyDecimal a => PyDecimal <$> dec_add a d
  end.

(** *** Models the module queries *)

Record DefaultPriceListItem (R : Type) := {
  dpk : nat;
  item_type : string;
  key : string;
  resource_content_type : ContentType;
  default_monthly_rate : R
}.
Arguments dpk {R} _.
Arguments item_type {R} _.
Arguments key {R} _.
Arguments resource_content_type {R} _.
Arguments default_monthly_rate {R} _.

(** A service's own price for a default price list item. *)
Record PriceListItem (R : Type) := {
  pk : nat;
  pli_service : Service;
  (** the foreign key behind [pricelistitem_set] *)
  default_price_list_item : nat;
  monthly_rate : R
}.
Arguments pk {R} _.
Arguments pli_service {R} _.
Arguments default_price_list_item {R} _.
Arguments monthly_rate {R} _.

(** The two tables, in the order their querysets iterate. *)
Record Database (R : Type) := {
  DefaultPriceListItem_objects : list (DefaultPriceListItem R);
  PriceListItem_objects : list (PriceListItem R)
}.
Arguments DefaultPriceListItem_objects {R} _.
Arguments PriceListItem_objects {R} _.

(** A used item: [(<item type>, <item name>, <item usage>)]. *)
Definition used_item (Q : Type) : Type := string * string * Q.

(** The interface of a plugin's backend; the base class raises from all three. *)
Record CostTrackingBackend (Q R : Type) := {
  get_used_items : Resource → result (list (used_item Q));
  get_service_price_list_items : Service → result (list (PriceListItem R));
  get_default_price_list_items : result (list (DefaultPriceListItem R))
}.
Arguments get_used_items {Q R} _ _.
Arguments get_service_price_list_items {Q R} _ _.
Arguments get_default_price_list_items {Q R} _.

Definition CostTrackingBackend_base (Q R : Type) : CostTrackingBackend Q R := {|
  get_used_items := λ _, Raise NotImplementedError;
  get_service_price_list_items := λ _, Raise NotImplementedError;
  get_default_price_list_items := Raise NotImplementedError
|}.

(** What [logger.error] receives in [get_monthly_cost_estimate]:
    the item's key and type, and the resource. *)
Record LogRecord := {
  log_item_key : string;
  log_item_type : string;
  log_resource : Resource
}.

Section Estimate.

Context {D Q R : Type} `{!DecimalOps D, !NumberOps Q, !RateOps R D}.

(** [PriceListItem.objects.filter(service=...)], prefetched to
    [item.service_item] through [pricelistitem_set]. *)
Definition service_item (db : Database R) (svc : Service)
    (item : DefaultPriceListItem R) : list (PriceListItem R) :=
  filter (λ p, pli_service p = svc ∧ default_price_list_item p = dpk item)
    (PriceListItem_objects db).

(** [DefaultPriceListItem.objects.filter(resource_content_type=...)] *)
Definition price_items (db : Database R) (resource_content_type' : ContentType)
    : list (DefaultPriceListItem R) :=
  filter (λ item, resource_content_type item = resource_content_type')
    (DefaultPriceListItem_objects db).

(** [val = item.monthly_rate], replaced by
    [item.service_item[0].monthly_rate] when [item.service_item] is not
    empty. *)
Definition item_val (db : Database R) (svc : Service)
    (item : DefaultPriceListItem R) : R :=
  match service_item db svc item with
  | [] => default_monthly_rate item
  | first :: _ => monthly_rate first
  end.

(** The body of the loop of [_get_price_map]. *)
Definition price_map_step (db : Database R) (svc : Service)
    (price_map : gmap (string * string) D) (item : DefaultPriceListItem R)
    : gmap (string * string) D :=
  let key' := (item_type item, key item) in
  let val := item_val db svc item in
  <[key' := Decimal val]> price_map.

Definition _get_price_map (db : Database R) (resource : Resource)
    : gmap (string * string) D :=
  foldl (price_map_step db (service (service_project_link resource))) ∅
    (price_items db (get_for_model resource)).

(** [value * Decimal(format(item_count, ".15g"))] *)
Definition item_cost (value : D) (item_count : Q) : result D :=
  s ← format item_count ".15g";
  quantity ← Decimal_of_str s;
  dec_mul value quantity.

(** The loop of [get_monthly_cost_estimate] from the state
    ([monthly_cost], the log written so far). *)
Fixpoint estimate_loop (price_map : gmap (string * string) D) (resource : Resource)
    (items : list (used_item Q)) (monthly_cost : number D) (log : list LogRecord)
    : result (number D) * list LogRecord :=
  match items with
  | [] => (Ok monthly_cost, log)
  | (item_type', item_key, item_count) :: rest =>
    match price_map !! (item_type', item_key) with
    | None =>
      estimate_loop price_map resource rest monthly_cost
        (log ++ [{| log_item_key := item_key; log_item_type := item_type';
                    log_resource := resource |}])
    | Some value =>
      match c ← item_cost value item_count; iadd monthly_cost c with
      | Ok monthly_cost' => estimate_loop price_map resource rest monthly_cost' log
      | Raise e => (Raise e, log)
      end
    end
  end.

Definition get_monthly_cost_estimate (cls : CostTrackingBackend Q R)
    (db : Database R) (resource : Resource) (log : list LogRecord)
    : result (number D) * list LogRecord :=
  let price_map := _get_price_map db resource in
  let monthly_cost := PyInt 0 in
  match get_used_items cls resource with
  | Raise e => (Raise e, log)
  | Ok items => estimate_loop price_map resource items monthly_cost log
  end.

(** [DefaultPriceListItem]'s [unique_together]:
    [('key', 'item_type', 'resource_content_type')]. *)
Definition default_items_unique (db : Database R) : Prop :=
  NoDup ((λ item, (key item, item_type item, resource_content_type item))
           <$> DefaultPriceListItem_objects db).

(** Deleting the price list items whose primary key is [pk']. *)
Definition delete_price_list_item (pk' : nat) (db : Database R) : Database R := {|
  DefaultPriceListItem_objects := DefaultPriceListItem_objects db;
  PriceListItem_objects := filter (λ p, pk p ≠ pk') (PriceListItem_objects db)
|}.

(** The used items that have a price, each with its price. *)
Definition priced (price_map : gmap (string * string) D)
    (items : list (used_item Q)) : list (D * Q) :=
  omap (λ item, (λ value, (value, item.2)) <$> price_map !! (item.1.1, item.1.2)) items.

(** The log records of the used items that have no price. *)
Definition missing (price_map : gmap (string * string) D) (resource : Resource)
    (items : list (used_item Q)) : list LogRecord :=
  omap (λ item,
    match price_map !! (item.1.1, item.1.2) with
    | None => Some {| log_item_key := item.1.2; log_item_type := item.1.1;
                      log_resource := resource |}
    | Some _ => None
    end) items.

(** The sum of [value * Decimal(format(count, ".15g"))] over [terms], added
    to [total] from left to right. *)
Fixpoint sum_costs (terms : list (D * Q)) (total : number D) : result (number D) :=
  match terms with
  | [] => Ok total
  | (value, item_count) :: rest =>
    c ← item_cost value item_count;
    total' ← iadd total c;
    sum_costs rest total'
  end.

End Estimate.

(** *** Exact arithmetic

    What the estimate is measured against. Every Decimal has a value, a
    rational number, and every count a quantity, the number that
    [format(count, ".15g")] prints. Arithmetic is exact when it rounds
    nothing and traps nothing: [Decimal] of that string is the quantity, and
    a sum and a product are returned and have the sum and the product of the
    values. *)

Import Qcanon (Qc, Qcplus, Qcmult).

Class ExactOps (D Q : Type) `{!DecimalOps D, !NumberOps Q} := {
  value_of : D → Qc;
  quantity_of : Q → Qc;
  Decimal_of_int_exact (z : Z) : value_of (Decimal_of_int z) = Qc_of_Z z;
  Decimal_of_str_exact (item_count : Q) :
    ∃ s d, format item_count ".15g" = Ok s ∧ Decimal_of_str s = Ok d
           ∧ value_of d = quantity_of item_count;
  dec_add_exact (a b : D) :
    ∃ c, dec_add a b = Ok c ∧ value_of c = Qcplus (value_of a) (value_of b);
  dec_mul_exact (a b : D) :
    ∃ c, dec_mul a b = Ok c ∧ value_of c = Qcmult (value_of a) (value_of b)
}.

Section Sum.

Context {D Q : Type} `{!DecimalOps D, !NumberOps Q} {exact : ExactOps D Q}.

(** The value of a [monthly_cost]. *)
Definition amount_of (monthly_cost : number D) : Qc :=
  match monthly_cost with
  | PyInt z => Qc_of_Z z
  | PyDecimal d => value_of d
  end.

(** What a used item costs: its rate times its quantity, and nothing when
    the price map has no rate for it. *)
Definition rate_times_quantity (price_map : gmap (string * string) D)
    (item : used_item Q) : Qc :=
  match price_map !! (item.1.1, item.1.2) with
  | Some rate => Qcmult (value_of rate) (quantity_of item.2)
  | None => Qc_of_Z 0
  end.

(** The sum of rate times quantity over the used items, in arithmetic. *)
Definition total_cost (price_map : gmap (string * string) D)
    (items : list (used_item Q)) : Qc :=
  foldr (λ item total, Qcplus (rate_times_quantity price_map item) total)
    (Qc_of_Z 0) items.

End Sum.

(** *** Test doubles: amounts that are whole numbers

    An implementation of the three interfaces that runs the model on
    examples. Counts are ints of at most 15 digits, for which
    [format(n, ".15g")] is [str(n)]; prices and costs are whole-number
    Decimals, added and multiplied exactly; [".15g"] is the one format
    spec the double knows. *)
Module Doubles.

Record small_int := {
  int_value : Z;
  int_small : Is_true (bool_decide (Z.abs int_value < 10 ^ 15)%Z)
}.

Definition count (z : Z) (small : Is_true (bool_decide (Z.abs z < 10 ^ 15)%Z))
    : small_int :=
  {| int_value := z; int_small := small |}.

#[export] Instance small_int_number : NumberOps small_int := {|
  format q format_spec :=
    if decide (format_spec = ".15g") then
      Ok (NilZero.string_of_int (Z.to_int (int_value q)))
    else Raise (PyError "ValueError")
|}.

#[export] Instance whole_decimal : DecimalOps Z := {|
  Decimal_of_int z := z;
  Decimal_of_str s :=
    match NilZero.int_of_string s with
    | Some i => Ok (Z.of_int i)
    | None => Raise (PyError "InvalidOperation")
    end;
  dec_add a b := Ok (a + b)%Z;
  dec_mul a b := Ok (a * b)%Z
|}.

#[export] Instance whole_rate : RateOps Z Z := {| Decimal val := val |}.

(** The value of a [monthly_cost]. *)
Definition amount (n : number Z) : Z :=
  match n with
  | PyInt z => z
  | PyDecimal d => d
  end.

(** The sum of price times count, in arithmetic. *)
Definition arithmetic_sum (terms : list (Z * small_int)) : Z :=
  foldr (λ term total, term.1 * int_value term.2 + total)%Z 0%Z terms.

Definition instance_type : ContentType := 7.
Definition openstack : Service := 1.

Definition instance : Resource := {|
  _meta := {| app_label := "openstack" |};
  get_for_model := instance_type;
  service_project_link := {| service := openstack |};
  resource_name := "vm-1"
|}.

(** The default price list: a flavor at 10 a month and storage at 2 a month
    for instances, and a flavor of the same name for another model. *)
Definition flavor_small : DefaultPriceListItem Z := {|
  dpk := 1; item_type := "flavor"; key := "small";
  resource_content_type := instance_type; default_monthly_rate := 10%Z
|}.

Definition storage_gb : DefaultPriceListItem Z := {|
  dpk := 2; item_type := "storage"; key := "1 GB";
  resource_content_type := instance_type; default_monthly_rate := 2%Z
|}.

Definition flavor_small_elsewhere : DefaultPriceListItem Z := {|
  dpk := 3; item_type := "flavor"; key := "small";
  resource_content_type := 8; default_monthly_rate := 99%Z
|}.

(** The service's own price for the flavor: 8 a month. *)
Definition flavor_small_override : PriceListItem Z := {|
  pk := 1; pli_service := openstack; default_price_list_item := 1;
  monthly_rate := 8%Z
|}.

Definition db_defaults : Database Z := {|
  DefaultPriceListItem_objects := [flavor_small; storage_gb; flavor_small_elsewhere];
  PriceListItem_objects := []
|}.

Definition db_override : Database Z := {|
  DefaultPriceListItem_objects := [flavor_small; storage_gb; flavor_small_elsewhere];
  PriceListItem_objects := [flavor_small_override]
|}.

Definition used : list (used_item small_int) :=
  [("flavor", "small", count 1 I); ("license-os", "centos7", count 1 I);
   ("storage", "1 GB", count 20 I)].

Definition backend : CostTrackingBackend small_int Z := {|
  get_used_items := λ _, Ok used;
  get_service_price_list_items := λ _, Raise NotImplementedError;
  get_default_price_list_items := Raise NotImplementedError
|}.

End Doubles.

(** *** Facts about the register *)

Section RegisterFacts.

Context {Backend : Type}.
Implicit Types (calls : list (string * Backend)) (backend : Backend).

Lemma registered_snoc calls label backend :
  registered (calls ++ [(label, backend)]) = register label backend (registered calls).
Proof. unfold registered. by rewrite foldl_app. Qed.

Lemma last_registered_snoc calls label label' backend :
  last_registered label (calls ++ [(label', backend)]) =
  if decide (label' = label) then Some backend else last_registered label calls.
Proof.
  unfold last_registered. rewrite filter_app, filter_cons, filter_nil. simpl.
  destruct (decide (label' = label)) as [->|Hne].
  - by rewrite last_snoc.
  - by rewrite app_nil_r.
Qed.

Lemma registered_lookup calls label :
  registered calls !! label = last_registered label calls.
Proof.
  induction calls as [|[label' backend] calls IH] using rev_ind.
  - done.
  - rewrite registered_snoc, last_registered_snoc. unfold register.
    rewrite lookup_insert. simpl. by destruct (decide (label' = label)).
Qed.

Lemma last_registered_None calls label :
  last_registered label calls = None ↔ label ∉ calls.*1.
Proof.
  unfold last_registered. rewrite fmap_None, last_None.
  rewrite list_elem_of_fmap. split.
  - intros Hnil [[l b] [Hl Hin]]. simpl in Hl. subst l.
    assert ((label, b) ∈ filter (λ call : string * Backend, call.1 = label) calls)
      as Hf by by apply list_elem_of_filter.
    rewrite Hnil in Hf. by apply not_elem_of_nil in Hf.
  - intros Hnot.
    destruct (filter _ calls) as [|[l b] rest] eqn:Hf; [done|].
    assert ((l, b) ∈ filter (λ call : string * Backend, call.1 = label) calls)
      as [Hl Hin]%list_elem_of_filter by (rewrite Hf; left).
    simpl in Hl. subst l. destruct Hnot. by exists (label, b).
Qed.

Lemma last_registered_elem_of calls label backend :
  last_registered label calls = Some backend → (label, backend) ∈ calls.
Proof.
  unfold last_registered. intros Hlast.
  apply fmap_Some in Hlast as ([l b] & Hlast & ->).
  apply last_Some_elem_of, list_elem_of_filter in Hlast as [Hl Hin].
  simpl in Hl. by subst l.
Qed.

(** C7. Resolving a resource whose application label was never registered
    raises [ServiceBackendNotImplemented]; resolving one whose label was
    registered returns a backend, the one registered under that very label
    (the latest, when the label was registered more than once). *)
Theorem get_resource_backend_registered calls (resource : Resource) :
  let label := app_label (_meta resource) in
  get_resource_backend (registered calls) resource =
    match last_registered label calls with
    | Some backend => Ok backend
    | None => Raise ServiceBackendNotImplemented
    end
  ∧ (last_registered label calls = None ↔ label ∉ calls.*1)
  ∧ (∀ backend, last_registered label calls = Some backend →
     (label, backend) ∈ calls)
  ∧ (∀ backend,
     get_resource_backend (register label backend (registered calls)) resource
     = Ok backend).
Proof.
  intros label. split_and!.
  - unfold get_resource_backend. by rewrite registered_lookup.
  - apply last_registered_None.
  - intros backend. apply last_registered_elem_of.
  - intros backend. unfold get_resource_backend, register.
    by rewrite lookup_insert_eq.
Qed.

End RegisterFacts.

(** *** Facts about the price map *)

Section PriceMapFacts.

Context {D R : Type} `{!RateOps R D}.
Implicit Types (db : Database R) (item : DefaultPriceListItem R)
  (p : PriceListItem R) (resource : Resource).

Lemma filter_unique {A B : Type} `{EqDecision B} (f : A → B) (l : list A) (x : A) :
  NoDup (f <$> l) → x ∈ l → filter (λ y, f y = f x) l = [x].
Proof.
  induction l as [|y l IH]; intros Hdup Hin.
  - by apply elem_of_nil in Hin.
  - rewrite fmap_cons in Hdup. apply NoDup_cons in Hdup as [Hy Hdup].
    rewrite filter_cons. apply elem_of_cons in Hin as [->|Hin].
    + rewrite decide_True by done. f_equal.
      destruct (filter _ l) as [|z rest] eqn:Hf; [done|].
      assert (z ∈ filter (λ y', f y' = f y) l) as [Hz Hzl]%list_elem_of_filter
        by (rewrite Hf; left).
      destruct Hy. rewrite <- Hz. by apply list_elem_of_fmap_2.
    + rewrite decide_False; [by apply IH|].
      intros Heq. destruct Hy. rewrite Heq. by apply list_elem_of_fmap_2.
Qed.

(** The map holds, under a key, the value of the last default item of the
    resource's content type that has this key. *)
Lemma _get_price_map_lookup db resource (k : string * string) :
  _get_price_map db resource !! k =
  (λ item, Decimal (item_val db (service (service_project_link resource)) item))
    <$> last (filter (λ item, (item_type item, key item) = k)
                (price_items db (get_for_model resource))).
Proof.
  unfold _get_price_map.
  induction (price_items db (get_for_model resource)) as [|item l IH] using rev_ind.
  - done.
  - rewrite foldl_snoc, filter_app, filter_cons, filter_nil.
    unfold price_map_step at 1. simpl. rewrite lookup_insert.
    destruct (decide ((item_type item, key item) = k)) as [Hk|Hk].
    + by rewrite last_snoc.
    + by rewrite app_nil_r.
Qed.

Lemma price_items_unique db (ct : ContentType) :
  default_items_unique db →
  NoDup ((λ item, (item_type item, key item)) <$> price_items db ct).
Proof.
  unfold default_items_unique, price_items.
  induction (DefaultPriceListItem_objects db) as [|item l IH]; intros Hdup.
  - constructor.
  - rewrite fmap_cons in Hdup. apply NoDup_cons in Hdup as [Hnew Hdup].
    rewrite filter_cons. case_decide as Hct; [|by apply IH].
    rewrite fmap_cons. apply NoDup_cons. split; [|by apply IH].
    intros ([item'] & Heq & [Hct' Hin]%list_elem_of_filter)%list_elem_of_fmap.
    destruct Hnew. apply list_elem_of_fmap. eexists; split; [|exact Hin].
    simpl in *. congruence.
Qed.

Lemma _get_price_map_item db resource item :
  default_items_unique db →
  item ∈ DefaultPriceListItem_objects db →
  resource_content_type item = get_for_model resource →
  _get_price_map db resource !! (item_type item, key item) =
  Some (Decimal (item_val db (service (service_project_link resource)) item)).
Proof.
  intros Hdup Hin Hct. rewrite _get_price_map_lookup.
  rewrite (filter_unique (λ item, (item_type item, key item))).
  - done.
  - by apply price_items_unique.
  - by apply list_elem_of_filter.
Qed.

Lemma _get_price_map_no_default db resource (k : string * string) :
  (∀ item, item ∈ DefaultPriceListItem_objects db →
     resource_content_type item = get_for_model resource →
     (item_type item, key item) ≠ k) →
  _get_price_map db resource !! k = None.
Proof.
  intros Hnone. rewrite _get_price_map_lookup.
  destruct (filter _ (price_items _ _)) as [|item rest] eqn:Hf; [done|].
  assert (item ∈ filter (λ item, (item_type item, key item) = k)
            (price_items db (get_for_model resource)))
    as [Hk [Hct Hin]%list_elem_of_filter]%list_elem_of_filter
    by (rewrite Hf; left).
  by destruct (Hnone item).
Qed.

Lemma service_item_delete db svc item (pk' : nat) :
  service_item (delete_price_list_item pk' db) svc item =
  filter (λ p, pk p ≠ pk') (service_item db svc item).
Proof.
  unfold service_item, delete_price_list_item. simpl.
  induction (PriceListItem_objects db) as [|p l IH]; [done|].
  rewrite !filter_cons.
  destruct (decide (pk p ≠ pk')), (decide (pli_service p = svc ∧ _));
    rewrite ?filter_cons, ?decide_True, ?decide_False by done; by f_equal.
Qed.

End PriceMapFacts.

(** *** Facts about the monthly cost estimate *)

Section EstimateFacts.

Context {D Q R : Type} `{!DecimalOps D, !NumberOps Q, !RateOps R D}.
Implicit Types (db : Database R) (item : DefaultPriceListItem R)
  (p : PriceListItem R) (resource : Resource) (cls : CostTrackingBackend Q R)
  (price_map : gmap (string * string) D) (items : list (used_item Q))
  (monthly_cost : number D) (log : list LogRecord).

(** One turn of the loop for an item that has a price. *)
Lemma estimate_loop_priced price_map resource item_type' item_key (item_count : Q)
    items monthly_cost log (value : D) :
  price_map !! (item_type', item_key) = Some value →
  estimate_loop price_map resource ((item_type', item_key, item_count) :: items)
    monthly_cost log =
  match
    s ← format item_count ".15g";
    quantity ← Decimal_of_str s;
    product ← dec_mul value quantity;
    iadd monthly_cost product
  with
  | Ok monthly_cost' => estimate_loop price_map resource items monthly_cost' log
  | Raise e => (Raise e, log)
  end.
Proof.
  intros Hvalue. simpl. rewrite Hvalue. unfold item_cost.
  destruct (format item_count ".15g") as [s|e]; simpl; [|done].
  destruct (Decimal_of_str s) as [quantity|e]; simpl; [|done].
  by destruct (dec_mul value quantity).
Qed.

(** One turn of the loop for an item that has none. *)
Lemma estimate_loop_missing price_map resource item_type' item_key (item_count : Q)
    items monthly_cost log :
  price_map !! (item_type', item_key) = None →
  estimate_loop price_map resource ((item_type', item_key, item_count) :: items)
    monthly_cost log =
  estimate_loop price_map resource items monthly_cost
    (log ++ [{| log_item_key := item_key; log_item_type := item_type';
                log_resource := resource |}]).
Proof. intros Hnone. simpl. by rewrite Hnone. Qed.

Lemma estimate_loop_value price_map resource items monthly_cost log :
  (estimate_loop price_map resource items monthly_cost log).1 =
  sum_costs (priced price_map items) monthly_cost.
Proof.
  revert monthly_cost log.
  induction items as [|[[item_type' item_key] item_count] items IH];
    intros monthly_cost log; [done|].
  unfold priced. simpl.
  destruct (price_map !! (item_type', item_key)) as [value|]; simpl.
  - destruct (item_cost value item_count) as [c|e]; simpl; [|done].
    destruct (iadd monthly_cost c) as [monthly_cost'|e]; simpl; [|done].
    apply IH.
  - apply IH.
Qed.

Lemma estimate_loop_log price_map resource items monthly_cost log total :
  (estimate_loop price_map resource items monthly_cost log).1 = Ok total →
  (estimate_loop price_map resource items monthly_cost log).2 =
  log ++ missing price_map resource items.
Proof.
  revert monthly_cost log.
  induction items as [|[[item_type' item_key] item_count] items IH];
    intros monthly_cost log.
  - intros _. simpl. by rewrite app_nil_r.
  - unfold missing. simpl.
    destruct (price_map !! (item_type', item_key)) as [value|]; simpl.
    + destruct (mbind _ _) as [monthly_cost'|e]; simpl; [|done].
      apply IH.
    + intros Hok. rewrite (IH _ _ Hok). by rewrite <- app_assoc.
Qed.

Lemma priced_missing_item price_map (before after : list (used_item Q))
    (item : used_item Q) :
  price_map !! (item.1.1, item.1.2) = None →
  priced price_map (before ++ item :: after) = priced price_map (before ++ after).
Proof.
  intros Hnone. unfold priced. rewrite !omap_app. simpl. by rewrite Hnone.
Qed.

Lemma priced_all_missing price_map items :
  Forall (λ item : used_item Q, price_map !! (item.1.1, item.1.2) = None) items →
  priced price_map items = [].
Proof.
  induction 1 as [|item items Hnone _ IH]; [done|].
  unfold priced in *. simpl. by rewrite Hnone.
Qed.

(** The loop reads a count through [format(item_count, ".15g")] alone. *)
Lemma estimate_loop_format price_map resource (items items' : list (used_item Q))
    monthly_cost log :
  Forall2 (λ item item' : used_item Q,
    item.1 = item'.1 ∧ format item.2 ".15g" = format item'.2 ".15g") items items' →
  estimate_loop price_map resource items monthly_cost log =
  estimate_loop price_map resource items' monthly_cost log.
Proof.
  intros Hsame. revert monthly_cost log.
  induction Hsame as [|[[t k] q] [[t' k'] q'] items items' [Hkey Hformat] _ IH];
    intros monthly_cost log; [done|].
  simpl in Hkey, Hformat. injection Hkey as -> ->. simpl.
  destruct (price_map !! (t', k')) as [value|]; [|apply IH].
  unfold item_cost. rewrite Hformat.
  destruct (mbind _ _) as [monthly_cost'|e]; [apply IH|done].
Qed.

Lemma item_cost_exact `{!ExactOps D Q} (rate : D) (item_count : Q) :
  ∃ c, item_cost rate item_count = Ok c
       ∧ value_of c = Qcmult (value_of rate) (quantity_of item_count).
Proof.
  unfold item_cost.
  destruct (Decimal_of_str_exact item_count) as (s & d & -> & Hd & Hquantity).
  simpl. rewrite Hd. simpl.
  destruct (dec_mul_exact rate d) as (c & Hc & Hvalue).
  exists c. split; [done|]. by rewrite Hvalue, Hquantity.
Qed.

Lemma iadd_exact `{!ExactOps D Q} (monthly_cost : number D) (c : D) :
  ∃ monthly_cost', iadd monthly_cost c = Ok monthly_cost'
    ∧ amount_of monthly_cost' = Qcplus (amount_of monthly_cost) (value_of c).
Proof.
  destruct monthly_cost as [z|a]; simpl.
  - destruct (dec_add_exact c (Decimal_of_int z)) as (c' & -> & Hvalue).
    exists (PyDecimal c'). split; [done|]. simpl.
    by rewrite Hvalue, Decimal_of_int_exact, Qcanon.Qcplus_comm.
  - destruct (dec_add_exact a c) as (c' & -> & Hvalue).
    by exists (PyDecimal c').
Qed.

(** Under exact arithmetic the loop returns, from any running total, that
    total plus the sum of rate times quantity over the used items. *)
Lemma estimate_loop_exact `{!ExactOps D Q} price_map resource
    (items : list (used_item Q)) monthly_cost log :
  ∃ total, estimate_loop price_map resource items monthly_cost log =
             (Ok total, log ++ missing price_map resource items)
    ∧ amount_of total = Qcplus (amount_of monthly_cost) (total_cost price_map items).
Proof.
  revert monthly_cost log.
  induction items as [|[[item_type' item_key] item_count] items IH];
    intros monthly_cost log.
  - exists monthly_cost. simpl. rewrite app_nil_r. split; [done|].
    by rewrite Z2Qc_inj_0, Qcanon.Qcplus_0_r.
  - unfold missing, total_cost, rate_times_quantity. simpl.
    destruct (price_map !! (item_type', item_key)) as [rate|] eqn:Hrate; simpl.
    + destruct (item_cost_exact rate item_count) as (c & -> & Hc). simpl.
      destruct (iadd_exact monthly_cost c) as (monthly_cost' & -> & Hamount).
      destruct (IH monthly_cost' log) as (total & -> & Htotal).
      exists total. split; [done|].
      rewrite Htotal, Hamount, Hc. unfold total_cost, rate_times_quantity.
      by rewrite Qcanon.Qcplus_assoc.
    + destruct (IH monthly_cost
        (log ++ [{| log_item_key := item_key; log_item_type := item_type';
                    log_resource := resource |}])) as (total & -> & Htotal).
      exists total. split; [by rewrite <- app_assoc|].
      rewrite Htotal. unfold total_cost, rate_times_quantity.
      by rewrite Z2Qc_inj_0, Qcanon.Qcplus_0_l.
Qed.

(** C3. Whatever used items [get_used_items] returns, under exact
    arithmetic the monthly cost estimate is returned and is the sum, over
    all the used items, of rate times quantity, where an item with no entry
    in the price map counts for [0]; the log gains one record per such item.
    Whatever the arithmetic, an item with no entry in the price map adds
    nothing and raises nothing: the estimate is what it is for the used items
    without it, a result that is returned comes with one log record per such
    item, and when no item has a price the estimate is [0]. *)
Theorem get_monthly_cost_estimate_sum cls db resource log items :
  get_used_items cls resource = Ok items →
  let price_map : gmap (string * string) D := _get_price_map db resource in
  let estimate := get_monthly_cost_estimate cls db resource log in
  (∀ exact : ExactOps D Q,
     ∃ total, estimate = (Ok total, log ++ missing price_map resource items)
       ∧ amount_of total = total_cost price_map items)
  ∧ (∀ total, estimate.1 = Ok total →
       estimate.2 = log ++ missing price_map resource items)
  ∧ (∀ before (item : used_item Q) after (cls' : CostTrackingBackend Q R),
       items = before ++ item :: after →
       price_map !! (item.1.1, item.1.2) = None →
       get_used_items cls' resource = Ok (before ++ after) →
       estimate.1 = (get_monthly_cost_estimate cls' db resource log).1)
  ∧ (Forall (λ item : used_item Q, price_map !! (item.1.1, item.1.2) = None) items →
       estimate.1 = Ok (PyInt 0)).
Proof.
  intros Hitems price_map estimate.
  unfold estimate, get_monthly_cost_estimate. rewrite Hitems. fold price_map.
  split_and!.
  - intros exact.
    destruct (estimate_loop_exact price_map resource items (PyInt 0) log)
      as (total & Hloop & Hamount).
    exists total. split; [done|]. rewrite Hamount. simpl.
    by rewrite Z2Qc_inj_0, Qcanon.Qcplus_0_l.
  - intros total. apply estimate_loop_log.
  - intros before item after cls' -> Hnone ->.
    by rewrite !estimate_loop_value, priced_missing_item.
  - intros Hnone. by rewrite estimate_loop_value, priced_all_missing.
Qed.

(** C4. Under the default price list's uniqueness constraint, the price of
    the (item type, key) of a default item of the resource's content type is
    the monthly rate of the first price list item of the resource's service
    for that default item when the service has one, and the default item's
    own monthly rate otherwise; a key with no default item of the resource's
    content type has no price. Deleting the service's only price list item
    for the default item brings the price, and with it the cost computed for
    a used item of that key, back to the default rate. *)
Theorem _get_price_map_resolution db resource item :
  default_items_unique db →
  item ∈ DefaultPriceListItem_objects db →
  resource_content_type item = get_for_model resource →
  let svc := service (service_project_link resource) in
  let k := (item_type item, key item) in
  (∀ p rest, service_item db svc item = p :: rest →
     _get_price_map (D:=D) db resource !! k = Some (Decimal (monthly_rate p)))
  ∧ (service_item db svc item = [] →
     _get_price_map (D:=D) db resource !! k = Some (Decimal (default_monthly_rate item)))
  ∧ (∀ k' : string * string,
     (∀ item', item' ∈ DefaultPriceListItem_objects db →
        resource_content_type item' = get_for_model resource →
        (item_type item', key item') ≠ k') →
     _get_price_map (D:=D) db resource !! k' = None)
  ∧ (∀ p, service_item db svc item = [p] →
     let db' := delete_price_list_item (pk p) db in
     _get_price_map (D:=D) db' resource !! k = Some (Decimal (default_monthly_rate item))
     ∧ ∀ (item_count : Q) monthly_cost log,
         estimate_loop (_get_price_map db' resource) resource
           [(item_type item, key item, item_count)] monthly_cost log =
         (c ← item_cost (Decimal (default_monthly_rate item)) item_count;
          iadd monthly_cost c, log)).
Proof.
  intros Hunique Hin Hct svc k.
  pose proof (_get_price_map_item (D:=D) db resource item Hunique Hin Hct) as Hmap.
  fold svc k in Hmap. split_and!.
  - intros p rest Hfirst. rewrite Hmap. unfold item_val. by rewrite Hfirst.
  - intros Hnone. rewrite Hmap. unfold item_val. by rewrite Hnone.
  - intros k'. apply _get_price_map_no_default.
  - intros p Honly db'.
    assert (_get_price_map (D:=D) db' resource !! k
            = Some (Decimal (default_monthly_rate item))) as Hmap'.
    { rewrite (_get_price_map_item db' resource item); [|done..].
      unfold item_val, db'. rewrite service_item_delete. fold svc.
      rewrite Honly, filter_cons, filter_nil.
      by rewrite decide_False by (intros Hne; by apply Hne). }
    split; [done|]. intros item_count monthly_cost log.
    simpl. unfold k in Hmap'. rewrite Hmap'.
    by destruct (mbind _ _).
Qed.

(** C6. Each used item that has a price adds
    [value * Decimal(format(item_count, ".15g"))] to the running total: the
    count is formatted with the spec [".15g"], the string is made a Decimal,
    and the product is the Decimal product of the rate and that Decimal. The
    count enters the estimate through that string alone, so two counts that
    format alike cost the same. *)
Theorem item_count_formatted price_map resource :
  (∀ item_type' item_key (item_count : Q) items monthly_cost log (value : D),
     price_map !! (item_type', item_key) = Some value →
     item_cost value item_count =
       (s ← format item_count ".15g"; quantity ← Decimal_of_str s;
        dec_mul value quantity)
     ∧ estimate_loop price_map resource ((item_type', item_key, item_count) :: items)
         monthly_cost log =
       match c ← item_cost value item_count; iadd monthly_cost c with
       | Ok monthly_cost' => estimate_loop price_map resource items monthly_cost' log
       | Raise e => (Raise e, log)
       end)
  ∧ (∀ (items items' : list (used_item Q)) monthly_cost log,
     Forall2 (λ item item' : used_item Q,
       item.1 = item'.1 ∧ format item.2 ".15g" = format item'.2 ".15g")
       items items' →
     estimate_loop price_map resource items monthly_cost log =
     estimate_loop price_map resource items' monthly_cost log).
Proof.
  split.
  - intros item_type' item_key item_count items monthly_cost log value Hvalue.
    split; [done|]. simpl. by rewrite Hvalue.
  - intros items items' monthly_cost log. apply estimate_loop_format.
Qed.

(** X2. The price map holds, under a key, the price of the last default
    price list item of the resource's content type that has this key (later
    items overwrite earlier ones), and nothing under a key no such item
    has. *)
Theorem _get_price_map_last_item db resource (k : string * string) :
  _get_price_map (D:=D) db resource !! k =
  (λ item, Decimal (item_val db (service (service_project_link resource)) item))
    <$> last (filter (λ item, (item_type item, key item) = k)
                (price_items db (get_for_model resource))).
Proof. apply _get_price_map_lookup. Qed.

(** On the base class, whose [get_used_items] is not implemented, the
    estimate raises [NotImplementedError] and logs nothing. *)
Theorem get_monthly_cost_estimate_base db resource log :
  get_monthly_cost_estimate (D:=D) (CostTrackingBackend_base Q R) db resource log =
  (Raise NotImplementedError, log).
Proof. reflexivity. Qed.

End EstimateFacts.

(** *** The model run on the doubles *)

Section Examples.

Import Doubles.

Lemma to_int_not_nil (z : Z) :
  Z.to_int z ≠ Decimal.Pos Decimal.Nil ∧ Z.to_int z ≠ Decimal.Neg Decimal.Nil.
Proof.
  assert (Z.to_int z = Decimal.norm (Z.to_int z)) as ->
    by by rewrite <- DecimalZ.to_of, DecimalZ.of_to.
  destruct (Z.to_int z) as [d|d]; simpl.
  - unfold Decimal.unorm. destruct (Decimal.nzhead d); split; congruence.
  - destruct (Decimal.nzhead d); split; congruence.
Qed.

(** On the doubles a count is read back from its string as it was. *)
Lemma item_cost_whole_numbers (value : Z) (item_count : small_int) :
  item_cost value item_count = Ok (value * int_value item_count)%Z.
Proof.
  unfold item_cost. simpl. destruct (to_int_not_nil (int_value item_count)).
  rewrite NilZero.isi by done. simpl. by rewrite DecimalZ.of_to.
Qed.

Lemma sum_costs_whole_numbers (terms : list (Z * small_int)) (total : number Z) :
  ∃ total', sum_costs terms total = Ok total'
    ∧ amount total' = (amount total + arithmetic_sum terms)%Z.
Proof.
  revert total. induction terms as [|[value item_count] terms IH]; intros total.
  - exists total. split; [done|]. simpl. lia.
  - cbn [sum_costs]. rewrite item_cost_whole_numbers.
    destruct total as [z|d]; simpl.
    + destruct (IH (PyDecimal (value * int_value item_count + z)%Z))
        as (total' & -> & Hamount).
      exists total'. split; [done|]. simpl in *. lia.
    + destruct (IH (PyDecimal (d + value * int_value item_count)%Z))
        as (total' & -> & Hamount).
      exists total'. split; [done|]. simpl in *. lia.
Qed.

(** With whole numbers and exact arithmetic the estimate is returned, and
    it is the arithmetic sum of price times count over the priced items. *)
Lemma estimate_loop_whole_numbers (price_map : gmap (string * string) Z)
    (resource : Resource) (items : list (used_item small_int))
    (monthly_cost : number Z) (log : list LogRecord) :
  ∃ total, estimate_loop price_map resource items monthly_cost log =
             (Ok total, log ++ missing price_map resource items)
    ∧ amount total = (amount monthly_cost + arithmetic_sum (priced price_map items))%Z.
Proof.
  destruct (sum_costs_whole_numbers (priced price_map items) monthly_cost)
    as (total & Hsum & Hamount).
  exists total. split; [|done].
  rewrite <- estimate_loop_value with (resource := resource) (log := log) in Hsum.
  pose proof (estimate_loop_log _ _ _ _ _ _ Hsum) as Hlog.
  destruct (estimate_loop price_map resource items monthly_cost log).
  simpl in *. congruence.
Qed.

(** X1. With whole-number prices and counts and exact arithmetic, the loop
    of the estimate returns, from any running total, that total plus the
    arithmetic sum of price times count over the used items that have a
    price, and logs exactly the items that have none. *)
Theorem estimate_loop_exact_sum (price_map : gmap (string * string) Z)
    (resource : Resource) (items : list (used_item small_int))
    (monthly_cost : number Z) (log : list LogRecord) :
  ∃ total, estimate_loop price_map resource items monthly_cost log =
             (Ok total, log ++ missing price_map resource items)
    ∧ amount total = (amount monthly_cost + arithmetic_sum (priced price_map items))%Z.
Proof. apply estimate_loop_whole_numbers. Qed.

(** Defaults only: 10 for the flavor and 20 times 2 for the storage; the
    licence has no price and is logged. *)
Example estimate_with_defaults :
  get_monthly_cost_estimate backend db_defaults instance [] =
  (Ok (PyDecimal 50%Z),
   [{| log_item_key := "centos7"; log_item_type := "license-os";
       log_resource := instance |}]).
Proof. vm_compute. reflexivity. Qed.

(** The service's own price of 8 replaces the default 10. *)
Example estimate_with_override :
  (get_monthly_cost_estimate backend db_override instance []).1 =
  Ok (PyDecimal 48%Z).
Proof. vm_compute. reflexivity. Qed.

Example estimate_override_deleted :
  (get_monthly_cost_estimate backend (delete_price_list_item 1 db_override)
     instance []).1 = Ok (PyDecimal 50%Z).
Proof. vm_compute. reflexivity. Qed.

(** With no used item that has a price the result is the int [0]. *)
Example estimate_nothing_priced :
  estimate_loop (_get_price_map db_defaults instance) instance
    [("license-os", "centos7", count 1 I)] (PyInt 0) [] =
  (Ok (PyInt 0),
   [{| log_item_key := "centos7"; log_item_type := "license-os";
       log_resource := instance |}]).
Proof. vm_compute. reflexivity. Qed.

(** The doubles' arithmetic is exact: the value of a whole-number Decimal
    and the quantity of a count are the whole numbers themselves. *)
Lemma Decimal_of_str_whole_numbers (item_count : small_int) :
  ∃ (s : string) (d : Z),
    format item_count ".15g" = Ok s ∧ Decimal_of_str s = Ok d
    ∧ Qc_of_Z d = Qc_of_Z (int_value item_count).
Proof.
  exists (NilZero.string_of_int (Z.to_int (int_value item_count))),
    (int_value item_count).
  split; [done|]. split; [|done]. simpl.
  destruct (to_int_not_nil (int_value item_count)).
  rewrite NilZero.isi by done. by rewrite DecimalZ.of_to.
Qed.

Definition whole_exact : ExactOps Z small_int := {|
  value_of := Qc_of_Z;
  quantity_of item_count := Qc_of_Z (int_value item_count);
  Decimal_of_int_exact z := eq_refl;
  Decimal_of_str_exact := Decimal_of_str_whole_numbers;
  dec_add_exact a b := ex_intro _ (a + b)%Z (conj eq_refl (Z2Qc_inj_add a b));
  dec_mul_exact a b := ex_intro _ (a * b)%Z (conj eq_refl (Z2Qc_inj_mul a b))
|}.

(** The flavor at the service's 8 and twenty units of storage at 2 make 48;
    the licence has no price. *)
Lemma get_monthly_cost_estimate_sum_witness :
  get_used_items backend instance = Ok used
  ∧ (get_monthly_cost_estimate backend db_override instance []).1
    = Ok (PyDecimal 48%Z)
  ∧ total_cost (exact:=whole_exact) (_get_price_map db_override instance) used
    = Qc_of_Z 48
  ∧ (get_monthly_cost_estimate backend db_override instance []).2
    = [] ++ missing (_get_price_map db_override instance) instance used.
Proof.
  pose proof (get_monthly_cost_estimate_sum backend db_override instance [] used
                eq_refl) as (Hexact & Hlog & _).
  split; [reflexivity|]. split; [reflexivity|].
  split; [|apply (Hlog (PyDecimal 48%Z)); reflexivity].
  destruct (Hexact whole_exact) as (total & Hestimate & Hamount).
  rewrite <- Hamount. apply (f_equal fst) in Hestimate.
  change (Ok (PyDecimal 48%Z) = Ok total) in Hestimate.
  by injection Hestimate as <-.
Defined.

Lemma db_override_unique : default_items_unique db_override.
Proof.
  unfold default_items_unique. apply (bool_decide_unpack _). vm_compute. exact I.
Qed.

Lemma _get_price_map_resolution_witness :
  default_items_unique db_override
  ∧ flavor_small ∈ DefaultPriceListItem_objects db_override
  ∧ resource_content_type flavor_small = get_for_model instance
  ∧ _get_price_map db_override instance !! ("flavor", "small") = Some 8%Z
  ∧ _get_price_map (delete_price_list_item 1 db_override) instance
      !! ("flavor", "small") = Some 10%Z.
Proof.
  assert (flavor_small ∈ DefaultPriceListItem_objects db_override) as Hin
    by apply list_elem_of_here.
  pose proof (_get_price_map_resolution (D:=Z) (Q:=small_int) db_override instance
                flavor_small db_override_unique Hin eq_refl)
    as (Hservice & _ & _ & Hdelete).
  split_and!; [exact db_override_unique|exact Hin|reflexivity| |].
  - exact (Hservice flavor_small_override [] eq_refl).
  - exact (proj1 (Hdelete flavor_small_override eq_refl)).
Defined.

End Examples.

(** *** More facts about the register and the estimate *)

Section RegisteredBackends.

Context {Backend : Type}.
Implicit Types (calls : list (string * Backend)) (backend : Backend).

Lemma registered_dom calls :
  dom (registered calls) = list_to_set (C:=gset string) calls.*1.
Proof.
  induction calls as [|[label backend] calls IH] using rev_ind.
  - unfold registered, _register_initial. simpl. by rewrite dom_empty_L.
  - rewrite registered_snoc. unfold register. rewrite dom_insert_L, IH.
    rewrite fmap_app, list_to_set_app_L. simpl.
    rewrite union_empty_r_L. apply union_comm_L.
Qed.

(** X5. After any sequence of [register] calls, the registered backends are
    exactly the backends last registered under some label, one per label: a
    backend that a later call replaced under its label is no longer among
    them, and registering a label twice does not list it twice. *)
Theorem get_registered_backends_registered calls :
  (∀ backend,
     backend ∈ get_registered_backends (registered calls) ↔
     ∃ label, last_registered label calls = Some backend)
  ∧ length (get_registered_backends (registered calls)) =
    length (remove_dups calls.*1).
Proof.
  unfold get_registered_backends. split.
  - intros backend. rewrite list_elem_of_fmap. split.
    + intros ([label backend'] & -> & Hin). exists label.
      apply elem_of_map_to_list in Hin. by rewrite <- registered_lookup.
    + intros [label Hlast]. exists (label, backend). split; [done|].
      apply elem_of_map_to_list. by rewrite registered_lookup.
  - rewrite length_fmap, length_map_to_list, <- size_dom, registered_dom.
    rewrite <- (size_list_to_set (C:=gset string) (remove_dups calls.*1))
      by apply NoDup_remove_dups.
    f_equal. apply set_eq. intros label.
    by rewrite !elem_of_list_to_set, elem_of_remove_dups.
Qed.

End RegisteredBackends.

Section EstimateMore.

Context {D Q R : Type} `{!DecimalOps D, !NumberOps Q, !RateOps R D}.
Implicit Types (db : Database R) (resource : Resource)
  (price_map : gmap (string * string) D) (items : list (used_item Q))
  (monthly_cost : number D) (log : list LogRecord).

Lemma sum_costs_decimal (terms : list (D * Q)) (d : D) (total : number D) :
  sum_costs terms (PyDecimal d) = Ok total → ∃ d', total = PyDecimal d'.
Proof.
  revert d. induction terms as [|[value item_count] terms IH]; intros d.
  - intros [= <-]. eauto.
  - cbn [sum_costs]. destruct (item_cost value item_count) as [c|e]; simpl; [|done].
    destruct (dec_add d c) as [d'|e]; simpl; [apply IH|done].
Qed.

(** X6. An estimate that is returned is the int [0] when no used item has a
    price (no used items at all included), and a Decimal as soon as one
    has: the int the total starts as is returned as it is, never a Decimal
    zero. *)
Theorem get_monthly_cost_estimate_type (cls : CostTrackingBackend Q R) db resource
    log items (total : number D) :
  get_used_items cls resource = Ok items →
  (get_monthly_cost_estimate cls db resource log).1 = Ok total →
  (priced (_get_price_map db resource) items = [] ∧ total = PyInt 0)
  ∨ (priced (_get_price_map (D:=D) db resource) items ≠ []
     ∧ ∃ d, total = PyDecimal d).
Proof.
  intros Hitems. unfold get_monthly_cost_estimate. rewrite Hitems.
  rewrite estimate_loop_value.
  destruct (priced _ items) as [|[value item_count] terms].
  - intros [= <-]. by left.
  - cbn [sum_costs]. destruct (item_cost value item_count) as [c|e]; simpl; [|done].
    destruct (dec_add c (Decimal_of_int 0)) as [d'|e]; simpl; [|done].
    intros Hsum%sum_costs_decimal. by right.
Qed.

(** X7. The loop works through the used items in their order and stops at
    the first error: over [items ++ more] it does what it does over [items]
    and, when that raised, raises the same with the same log (no item of
    [more] is priced or logged), and otherwise goes on over [more] from the
    total and the log reached. *)
Theorem estimate_loop_app price_map resource items (more : list (used_item Q))
    monthly_cost log :
  estimate_loop price_map resource (items ++ more) monthly_cost log =
  match estimate_loop price_map resource items monthly_cost log with
  | (Ok monthly_cost', log') => estimate_loop price_map resource more monthly_cost' log'
  | (Raise e, log') => (Raise e, log')
  end.
Proof.
  revert monthly_cost log.
  induction items as [|[[item_type' item_key] item_count] items IH];
    intros monthly_cost log; [done|].
  simpl. destruct (price_map !! (item_type', item_key)) as [value|]; [|apply IH].
  destruct (mbind _ _) as [monthly_cost'|e]; [apply IH|done].
Qed.

(** X8. A key has a price exactly when a default price list item of the
    resource's content type has that key, and the price is then the monthly
    rate either of such a default item that the resource's service has no
    price list item for, or of a price list item of the resource's own
    service for such a default item: never a price of another service or
    of another content type. *)
Theorem _get_price_map_provenance db resource (k : string * string) :
  (is_Some (_get_price_map (D:=D) db resource !! k) ↔
   ∃ item, item ∈ DefaultPriceListItem_objects db
     ∧ resource_content_type item = get_for_model resource
     ∧ (item_type item, key item) = k)
  ∧ (∀ value : D, _get_price_map db resource !! k = Some value →
     ∃ item, item ∈ DefaultPriceListItem_objects db
       ∧ resource_content_type item = get_for_model resource
       ∧ (item_type item, key item) = k
       ∧ (service_item db (service (service_project_link resource)) item = []
            ∧ value = Decimal (default_monthly_rate item)
          ∨ ∃ p, p ∈ PriceListItem_objects db
              ∧ pli_service p = service (service_project_link resource)
              ∧ default_price_list_item p = dpk item
              ∧ value = Decimal (monthly_rate p))).
Proof.
  assert (∀ value : D, _get_price_map db resource !! k = Some value →
    ∃ item, item ∈ DefaultPriceListItem_objects db
      ∧ resource_content_type item = get_for_model resource
      ∧ (item_type item, key item) = k
      ∧ value = Decimal (item_val db (service (service_project_link resource)) item))
    as Hitem.
  { intros value. rewrite _get_price_map_lookup.
    intros (item & Hlast & ->)%fmap_Some.
    apply last_Some_elem_of, list_elem_of_filter in Hlast as [Hk Hin].
    apply list_elem_of_filter in Hin as [Hct Hin]. by exists item. }
  split.
  - split.
    + intros [value (item & ? & ? & ? & _)%Hitem]. by exists item.
    + intros (item & Hin & Hct & Hk). rewrite _get_price_map_lookup.
      apply fmap_is_Some.
      assert (item ∈ filter (λ item, (item_type item, key item) = k)
                (price_items db (get_for_model resource))) as Hf.
      { apply list_elem_of_filter. split; [done|]. by apply list_elem_of_filter. }
      destruct (last (filter _ _)) eqn:Hlast; [done|].
      apply last_None in Hlast. rewrite Hlast in Hf. by apply elem_of_nil in Hf.
  - intros value (item & Hin & Hct & Hk & ->)%Hitem.
    exists item. split_and!; [done..|]. unfold item_val.
    destruct (service_item _ _ item) as [|p rest] eqn:Hservice; [by left|].
    right. exists p.
    assert (p ∈ service_item db (service (service_project_link resource)) item)
      as [[Hs Hd] Hp]%list_elem_of_filter by (rewrite Hservice; left).
    done.
Qed.

End EstimateMore.

Section MoreExamples.

Import Doubles.

Lemma get_monthly_cost_estimate_type_witness :
  get_used_items backend instance = Ok used
  ∧ (get_monthly_cost_estimate backend db_override instance []).1
    = Ok (PyDecimal 48%Z)
  ∧ ((priced (_get_price_map db_override instance) used = []
      ∧ PyDecimal 48%Z = PyInt 0)
     ∨ (priced (_get_price_map db_override instance) used ≠ []
        ∧ ∃ d, PyDecimal 48%Z = PyDecimal d)).
Proof.
  split; [reflexivity|]. split; [reflexivity|].
  apply (get_monthly_cost_estimate_type backend db_override instance [] used);
    reflexivity.
Defined.

End MoreExamples.

End CostTracking.

(** ** Invitations: [InvitationSerializer.validate] *)

Module Invitations.

(** Model instances, which are truthy; Python's [None] is [None]. *)
Record Customer := { customer_pk : nat }.
Record Project := { project_pk : nat }.

(** The values of the two [choice_mappings]. *)
Inductive CustomerRoleType := OWNER.
Inductive ProjectRoleType := ADMINISTRATOR | MANAGER.

(** A dict entry: absent ([None]), or present with a value that may be
    Python's [None] ([Some None]). *)
Definition entry (A : Type) : Type := option (option A).

(** [d.get(key)]: [None] for an absent key. *)
Definition get {A : Type} (e : entry A) : option A :=
  match e with
  | Some value => value
  | None => None
  end.

(** The nested dicts the dotted [source]s of the four fields build. *)
Record customer_role_dict := {
  cr_customer : entry Customer;
  cr_role_type : entry CustomerRoleType
}.

Record project_role_dict := {
  pr_project : entry Project;
  pr_role_type : entry ProjectRoleType
}.

(** [attrs], the validated fields: each key is there or not. *)
Record Attrs := {
  link_template : option string;
  email : option string;
  customer_role : option customer_role_dict;
  project_role : option project_role_dict
}.

(** [{}] *)
Definition empty_customer_role : customer_role_dict :=
  {| cr_customer := None; cr_role_type := None |}.
Definition empty_project_role : project_role_dict :=
  {| pr_project := None; pr_role_type := None |}.

(** [obj] as a condition: [None] is false, a model instance true. *)
Definition truthy {A : Type} (obj : option A) : bool :=
  match obj with
  | Some _ => true
  | None => false
  end.

(** [obj is None] *)
Definition is_None {A : Type} (obj : option A) : bool := negb (truthy obj).

(** [needle in haystack] for two strs. *)
Fixpoint contains (needle haystack : string) : bool :=
  String.prefix needle haystack ||
  match haystack with
  | EmptyString => false
  | String _ rest => contains needle rest
  end.

Definition validate (attrs : Attrs) : result Attrs :=
  match link_template attrs with
  | None => Raise (KeyError "link_template")
  | Some link_template' =>
    if negb (contains "{uuid}" link_template') then
      Raise (ValidationError (Some "link_template")
               "Link template must include '{uuid}' parameter.")
    else
      let customer_role' := default empty_customer_role (customer_role attrs) in
      let project_role' := default empty_project_role (project_role attrs) in
      let project := get (pr_project project_role') in
      let customer := get (cr_customer customer_role') in
      if truthy customer && truthy project then
        Raise (ValidationError None
                 "Cannot create invitation to project and customer simultaneously.")
      else if negb (truthy customer || truthy project) then
        Raise (ValidationError None "Customer or project must be provided.")
      else if truthy customer && is_None (get (cr_role_type customer_role')) then
        Raise (ValidationError (Some "customer_role") "Customer role must be provided.")
      else if truthy project && is_None (get (pr_role_type project_role')) then
        Raise (ValidationError (Some "project_role") "Project role must be provided.")
      else Ok attrs
  end.

(** What a request names, read as [validate] reads it. *)
Definition names_customer (attrs : Attrs) : bool :=
  truthy (get (cr_customer (default empty_customer_role (customer_role attrs)))).
Definition names_project (attrs : Attrs) : bool :=
  truthy (get (pr_project (default empty_project_role (project_role attrs)))).
Definition gives_customer_role (attrs : Attrs) : bool :=
  truthy (get (cr_role_type (default empty_customer_role (customer_role attrs)))).
Definition gives_project_role (attrs : Attrs) : bool :=
  truthy (get (pr_role_type (default empty_project_role (project_role attrs)))).

(** Rejected with a validation error. *)
Definition rejected (r : result Attrs) : Prop :=
  ∃ field message, r = Raise (ValidationError field message).

(** A request for a project role that names a customer too. *)
Definition both : Attrs := {|
  link_template := Some "https://example.com/invitation/{uuid}/";
  email := Some "user@example.com";
  customer_role := Some {| cr_customer := Some (Some {| customer_pk := 1 |});
                           cr_role_type := Some (Some OWNER) |};
  project_role := Some {| pr_project := Some (Some {| project_pk := 2 |});
                          pr_role_type := Some (Some ADMINISTRATOR) |}
|}.

(** An invitation to own a customer; [project] was sent as null. *)
Definition to_customer : Attrs := {|
  link_template := Some "https://example.com/invitation/{uuid}/";
  email := Some "user@example.com";
  customer_role := Some {| cr_customer := Some (Some {| customer_pk := 1 |});
                           cr_role_type := Some (Some OWNER) |};
  project_role := Some {| pr_project := Some None; pr_role_type := None |}
|}.

(** *** [InvitationSerializer.create] *)

#[global] Instance Customer_eq_dec : EqDecision Customer.
Proof. solve_decision. Defined.
#[global] Instance Project_eq_dec : EqDecision Project.
Proof. solve_decision. Defined.
#[global] Instance CustomerRoleType_eq_dec : EqDecision CustomerRoleType.
Proof. solve_decision. Defined.
#[global] Instance ProjectRoleType_eq_dec : EqDecision ProjectRoleType.
Proof. solve_decision. Defined.

(** The role objects [create] looks up through [customer.roles] and
    [project.roles]. *)
Record CustomerRole := {
  customer_role_pk : nat;
  role_customer : Customer;
  customer_role_type : CustomerRoleType
}.

Record ProjectRole := {
  project_role_pk : nat;
  role_project : Project;
  project_role_type : ProjectRoleType
}.

(** What [create] reads of the structure models: the two role tables and
    [project.customer]. *)
Record Structure := {
  CustomerRole_objects : list CustomerRole;
  ProjectRole_objects : list ProjectRole;
  project_customer : Project → Customer
}.

(** The keyword arguments [create] hands on to the model serializer's
    [create], which makes the invitation of them; a key may be absent. *)
Record Invitation := {
  inv_link_template : option string;
  inv_email : option string;
  inv_project_role : option ProjectRole;
  inv_customer_role : option CustomerRole;
  inv_customer : option Customer
}.

(** [d[key]]: a [KeyError] for an absent key. *)
Definition getitem {A : Type} (key : string) (e : entry A) : result (option A) :=
  match e with
  | Some value => Ok value
  | None => Raise (KeyError key)
  end.

(** [obj.roles]: an [AttributeError] on [None]. *)
Definition roles_of {A : Type} (obj : option A) : result A :=
  match obj with
  | Some x => Ok x
  | None => Raise (PyError "AttributeError")
  end.

(** [manager.get(...)] over the rows that match. *)
Definition get_one {A : Type} (matching : list A) : result A :=
  match matching with
  | [] => Raise (PyError "DoesNotExist")
  | [x] => Ok x
  | _ => Raise (PyError "MultipleObjectsReturned")
  end.

(** A dict as a condition: true unless it is empty. *)
Definition customer_role_given (d : customer_role_dict) : bool :=
  bool_decide (is_Some (cr_customer d) ∨ is_Some (cr_role_type d)).
Definition project_role_given (d : project_role_dict) : bool :=
  bool_decide (is_Some (pr_project d) ∨ is_Some (pr_role_type d)).

Definition create (s : Structure) (validated_data : Attrs) : result Invitation :=
  let project_role_data := default empty_project_role (project_role validated_data) in
  let customer_role_data := default empty_customer_role (customer_role validated_data) in
  if project_role_given project_role_data then
    project ← getitem "project" (pr_project project_role_data);
    project ← roles_of project;
    role_type ← getitem "role_type" (pr_role_type project_role_data);
    project_role ← get_one
      (filter (λ role, role_project role = project
                       ∧ Some (project_role_type role) = role_type)
         (ProjectRole_objects s));
    Ok {| inv_link_template := link_template validated_data;
          inv_email := email validated_data;
          inv_project_role := Some project_role;
          inv_customer_role := None;
          inv_customer := Some (project_customer s project) |}
  else if customer_role_given customer_role_data then
    customer ← getitem "customer" (cr_customer customer_role_data);
    customer ← roles_of customer;
    role_type ← getitem "role_type" (cr_role_type customer_role_data);
    customer_role ← get_one
      (filter (λ role, role_customer role = customer
                       ∧ Some (customer_role_type role) = role_type)
         (CustomerRole_objects s));
    Ok {| inv_link_template := link_template validated_data;
          inv_email := email validated_data;
          inv_project_role := None;
          inv_customer_role := Some customer_role;
          inv_customer := Some customer |}
  else
    Ok {| inv_link_template := link_template validated_data;
          inv_email := email validated_data;
          inv_project_role := None;
          inv_customer_role := None;
          inv_customer := None |}.

(** A customer with its owner role and a project of it with its two roles. *)
Definition structure : Structure := {|
  CustomerRole_objects :=
    [{| customer_role_pk := 1; role_customer := {| customer_pk := 1 |};
        customer_role_type := OWNER |}];
  ProjectRole_objects :=
    [{| project_role_pk := 1; role_project := {| project_pk := 2 |};
        project_role_type := ADMINISTRATOR |};
     {| project_role_pk := 2; role_project := {| project_pk := 2 |};
        project_role_type := MANAGER |}];
  project_customer := λ _, {| customer_pk := 1 |}
|}.

(** An invitation to manage a project, sent with a customer role and
    no customer. *)
Definition to_project : Attrs := {|
  link_template := Some "https://example.com/invitation/{uuid}/";
  email := Some "user@example.com";
  customer_role := Some {| cr_customer := None; cr_role_type := Some (Some OWNER) |};
  project_role := Some {| pr_project := Some (Some {| project_pk := 2 |});
                          pr_role_type := Some (Some MANAGER) |}
|}.

Lemma validate_inv attrs attrs' :
  validate attrs = Ok attrs' →
  attrs' = attrs
  ∧ (names_customer attrs && names_project attrs = false)
  ∧ (names_customer attrs || names_project attrs = true)
  ∧ (names_customer attrs = true → gives_customer_role attrs = true)
  ∧ (names_project attrs = true → gives_project_role attrs = true).
Proof.
  unfold validate, names_customer, names_project, gives_customer_role,
    gives_project_role, is_None.
  destruct (link_template attrs) as [link|]; [|done].
  destruct (negb (contains "{uuid}" link)); [done|].
  destruct (truthy (get (cr_customer _))), (truthy (get (pr_project _))),
    (truthy (get (cr_role_type _))), (truthy (get (pr_role_type _)));
    simpl; try done; intros [= <-]; by repeat split.
Qed.

Lemma validate_rejects attrs link :
  link_template attrs = Some link →
  (names_customer attrs && names_project attrs = true
   ∨ names_customer attrs || names_project attrs = false
   ∨ names_customer attrs && negb (gives_customer_role attrs) = true
   ∨ names_project attrs && negb (gives_project_role attrs) = true) →
  rejected (validate attrs).
Proof.
  unfold validate, names_customer, names_project, gives_customer_role,
    gives_project_role, is_None, rejected.
  intros ->.
  destruct (negb (contains "{uuid}" link)); [by eauto|].
  destruct (truthy (get (cr_customer _))), (truthy (get (pr_project _))),
    (truthy (get (cr_role_type _))), (truthy (get (pr_role_type _)));
    simpl; eauto; intros [?|[?|[?|?]]]; done.
Qed.

(** C10. With the link template present, [validate] rejects with a
    validation error a request that names both a customer and a project, one
    that names neither, one that names a customer and gives no customer role
    and one that names a project and gives no project role. The attrs it
    accepts are returned as they are and name either a customer, with a
    customer role and no project, or a project, with a project role and no
    customer. *)
Theorem validate_one_target attrs link :
  link_template attrs = Some link →
  (names_customer attrs = true ∧ names_project attrs = true →
     rejected (validate attrs))
  ∧ (names_customer attrs = false ∧ names_project attrs = false →
     rejected (validate attrs))
  ∧ (names_customer attrs = true ∧ gives_customer_role attrs = false →
     rejected (validate attrs))
  ∧ (names_project attrs = true ∧ gives_project_role attrs = false →
     rejected (validate attrs))
  ∧ (∀ attrs', validate attrs = Ok attrs' →
     attrs' = attrs
     ∧ (names_customer attrs = true ∧ gives_customer_role attrs = true
          ∧ names_project attrs = false
        ∨ names_project attrs = true ∧ gives_project_role attrs = true
          ∧ names_customer attrs = false)).
Proof.
  intros Hlink. split_and!.
  - intros [Hc Hp]. apply (validate_rejects _ _ Hlink). left. by rewrite Hc, Hp.
  - intros [Hc Hp]. apply (validate_rejects _ _ Hlink). right; left.
    by rewrite Hc, Hp.
  - intros [Hc Hr]. apply (validate_rejects _ _ Hlink). right; right; left.
    by rewrite Hc, Hr.
  - intros [Hp Hr]. apply (validate_rejects _ _ Hlink). do 3 right.
    by rewrite Hp, Hr.
  - intros attrs' (-> & Hnot_both & Hone & Hcr & Hpr)%validate_inv.
    split; [done|].
    destruct (names_customer attrs), (names_project attrs); simpl in *;
      try done; [left|right]; auto.
Qed.

Example validate_both :
  validate both = Raise (ValidationError None
    "Cannot create invitation to project and customer simultaneously.").
Proof. reflexivity. Qed.

Example validate_to_customer : validate to_customer = Ok to_customer.
Proof. reflexivity. Qed.

Lemma validate_one_target_witness :
  link_template both = Some "https://example.com/invitation/{uuid}/"
  ∧ names_customer both = true ∧ names_project both = true
  ∧ rejected (validate both).
Proof.
  pose proof (validate_one_target both _ eq_refl) as (Hboth & _).
  split_and!; [reflexivity..|]. apply Hboth. split; reflexivity.
Defined.

Lemma append_cons (c : Ascii.ascii) (a b : string) :
  (String c a ++ b)%string = String c (a ++ b)%string.
Proof. reflexivity. Qed.

Lemma prefix_app (a b : string) :
  String.prefix a b = true ↔ ∃ rest, b = (a ++ rest)%string.
Proof.
  revert b. induction a as [|c a IH]; intros b.
  - split; [by exists b|by destruct b].
  - destruct b as [|c' b]; simpl; [split; [done|by intros [rest ?]]|].
    destruct (Ascii.ascii_dec c c') as [->|Hne].
    + rewrite IH. split; intros [rest Hrest]; exists rest;
        rewrite append_cons in *; congruence.
    + split; [done|]. intros [rest Hrest]. rewrite append_cons in Hrest.
      congruence.
Qed.

Lemma contains_app (needle haystack : string) :
  contains needle haystack = true ↔
  ∃ before after, haystack = (before ++ needle ++ after)%string.
Proof.
  assert (∀ haystack, contains needle haystack =
            String.prefix needle haystack ||
            match haystack with
            | EmptyString => false
            | String _ rest => contains needle rest
            end) as Hunfold by by intros [|??].
  induction haystack as [|c haystack IH]; rewrite Hunfold.
  - rewrite orb_false_r, prefix_app. split.
    + intros [after Hafter]. by exists "", after.
    + intros ([|c before] & after & Hhay); [by exists after|done].
  - rewrite orb_true_iff, prefix_app, IH. split.
    + intros [[after Hafter]|(before & after & Hhay)].
      * by exists "", after.
      * exists (String c before), after. by rewrite append_cons, Hhay.
    + intros ([|c' before] & after & Hhay).
      * left. by exists after.
      * right. exists before, after. rewrite append_cons in Hhay. congruence.
Qed.

(** X4. With the link template present, the answer of [validate] is the
    validation error on the [link_template] field exactly when ["{uuid}"]
    occurs nowhere in the template, whatever else the request names: a
    template that is accepted can be written as a text, ["{uuid}"] and a
    text. *)
Theorem validate_link_template attrs link :
  link_template attrs = Some link →
  (validate attrs = Raise (ValidationError (Some "link_template")
                             "Link template must include '{uuid}' parameter.") ↔
   ¬ ∃ before after, link = (before ++ "{uuid}" ++ after)%string)
  ∧ (∀ attrs', validate attrs = Ok attrs' →
     ∃ before after, link = (before ++ "{uuid}" ++ after)%string).
Proof.
  intros Hlink. pose proof (contains_app "{uuid}" link) as Hin.
  unfold validate. rewrite Hlink.
  destruct (contains "{uuid}" link); simpl.
  - apply proj1 in Hin. specialize (Hin eq_refl). split; [|done].
    split; [|done]. repeat case_match; done.
  - split; [|done]. split; [|done]. intros _ Hsome. by apply Hin in Hsome.
Qed.

Lemma validate_link_template_witness :
  link_template to_customer = Some "https://example.com/invitation/{uuid}/"
  ∧ ∃ before after,
      "https://example.com/invitation/{uuid}/" = (before ++ "{uuid}" ++ after)%string.
Proof.
  split; [reflexivity|].
  apply (proj2 (validate_link_template to_customer _ eq_refl) to_customer).
  reflexivity.
Defined.

Lemma get_one_Ok {A : Type} (matching : list A) (x : A) :
  get_one matching = Ok x → matching = [x].
Proof. destruct matching as [|y [|z rest]]; simpl; congruence. Qed.

(** X9. Of data that [validate] has accepted, [create] makes an invitation
    only with a customer and exactly one role: the role of the named type
    of the project the request names, with that project's customer, or the
    role of the named type of the customer it names, with that customer
    (and then the request carried nothing of a project); link template and
    email are handed on as they came. *)
Theorem create_validated (s : Structure) attrs attrs' (inv : Invitation) :
  validate attrs = Ok attrs' →
  create s attrs' = Ok inv →
  inv_link_template inv = link_template attrs
  ∧ inv_email inv = email attrs
  ∧ ((∃ project role,
        get (pr_project (default empty_project_role (project_role attrs)))
          = Some project
        ∧ get (pr_role_type (default empty_project_role (project_role attrs)))
          = Some (project_role_type role)
        ∧ role ∈ ProjectRole_objects s
        ∧ role_project role = project
        ∧ inv_project_role inv = Some role
        ∧ inv_customer_role inv = None
        ∧ inv_customer inv = Some (project_customer s project))
     ∨ (∃ customer role,
        get (cr_customer (default empty_customer_role (customer_role attrs)))
          = Some customer
        ∧ get (cr_role_type (default empty_customer_role (customer_role attrs)))
          = Some (customer_role_type role)
        ∧ role ∈ CustomerRole_objects s
        ∧ role_customer role = customer
        ∧ project_role_given (default empty_project_role (project_role attrs))
          = false
        ∧ inv_customer_role inv = Some role
        ∧ inv_project_role inv = None
        ∧ inv_customer inv = Some customer)).
Proof.
  intros (-> & Hnot_both & Hone & Hcr & Hpr)%validate_inv.
  unfold names_customer, names_project, gives_customer_role,
    gives_project_role in *.
  unfold create.
  destruct (default empty_project_role (project_role attrs))
    as [[[project|]|] [[ptype|]|]];
  destruct (default empty_customer_role (customer_role attrs))
    as [[[customer|]|] [[ctype|]|]];
  simpl in *; try done; try (by specialize (Hcr eq_refl));
    try (by specialize (Hpr eq_refl)).
  all: destruct (get_one _) as [role|e] eqn:Hrole; simpl; [|done].
  all: intros [= <-]; simpl; split; [done|]; split; [done|].
  all: apply get_one_Ok in Hrole.
  all: match goal with
       | H : filter ?P ?l = [?r] |- _ =>
         assert (r ∈ filter P l) as [[Hof Htype] Hin]%list_elem_of_filter
           by (rewrite H; left)
       end.
  all: first [left; exists project, role; split_and!; (done || congruence)
             |right; exists customer, role; split_and!; (done || congruence)].
Qed.

(** X10. The check of [validate] does not cover what [create] reads. Data it
    has accepted for a customer that carry anything of a project (a
    [project] sent as null, a project role) make [create] raise, a
    [KeyError] or an [AttributeError], before anything is looked up; data it
    has accepted for a project are turned into the same invitation whatever
    they carry of a customer role. *)
Theorem create_stray_role (s : Structure) attrs attrs' :
  validate attrs = Ok attrs' →
  (names_customer attrs = true →
   project_role_given (default empty_project_role (project_role attrs)) = true →
   create s attrs' = Raise (KeyError "project")
   ∨ create s attrs' = Raise (PyError "AttributeError"))
  ∧ (names_project attrs = true →
     create s attrs' =
     create s {| link_template := link_template attrs; email := email attrs;
                 customer_role := None; project_role := project_role attrs |}).
Proof.
  intros (-> & Hnot_both & Hone & Hcr & Hpr)%validate_inv.
  unfold names_customer, names_project, gives_customer_role,
    gives_project_role in *.
  unfold create. simpl.
  destruct (default empty_project_role (project_role attrs))
    as [[[project|]|] [[ptype|]|]];
  destruct (default empty_customer_role (customer_role attrs))
    as [[[customer|]|] [[ctype|]|]];
  simpl in *; try done; split; intros; try done; auto.
Qed.

Example create_to_project :
  create structure to_project =
  Ok {| inv_link_template := Some "https://example.com/invitation/{uuid}/";
        inv_email := Some "user@example.com";
        inv_project_role := Some {| project_role_pk := 2;
                                    role_project := {| project_pk := 2 |};
                                    project_role_type := MANAGER |};
        inv_customer_role := None;
        inv_customer := Some {| customer_pk := 1 |} |}.
Proof. reflexivity. Qed.

Example create_to_customer :
  validate to_customer = Ok to_customer
  ∧ create structure to_customer = Raise (PyError "AttributeError").
Proof. split; reflexivity. Qed.

Lemma create_validated_witness :
  validate to_project = Ok to_project
  ∧ (∃ inv, create structure to_project = Ok inv
       ∧ inv_customer inv = Some {| customer_pk := 1 |}
       ∧ inv_link_template inv = link_template to_project).
Proof.
  split; [reflexivity|]. eexists. split; [reflexivity|]. split; [reflexivity|].
  exact (proj1 (create_validated structure to_project to_project _
                  eq_refl eq_refl)).
Defined.

Lemma create_stray_role_witness :
  validate to_customer = Ok to_customer
  ∧ names_customer to_customer = true
  ∧ project_role_given (default empty_project_role (project_role to_customer)) = true
  ∧ (create structure to_customer = Raise (KeyError "project")
     ∨ create structure to_customer = Raise (PyError "AttributeError")).
Proof.
  split_and!; [reflexivity..|].
  apply (create_stray_role structure to_customer to_customer eq_refl);
    reflexivity.
Defined.

End Invitations.

(** ** Price estimates: migration [0024_auto_20160818_1003] *)

Module PriceEstimates.

(** *** The migration *)

(** The field classes the migration names, with the options that reach the
    database ([help_text] does not). *)
Inductive Field :=
  | CharField (max_length : nat)
  | JSONField (blank : bool)
  | FloatField (default : Z).

Inductive Operation :=
  | AlterField (model_name name : string) (field : Field)
  | AlterUniqueTogether (name : string) (unique_together : list (list string))
  | RemoveField (model_name name : string).

Definition operations : list Operation := [
  AlterField "defaultpricelistitem" "item_type" (CharField 255);
  AlterField "defaultpricelistitem" "key" (CharField 255);
  AlterField "defaultpricelistitem" "metadata" (JSONField true);
  AlterField "priceestimate" "consumed" (FloatField 0);
  AlterField "priceestimate" "details" (JSONField true);
  AlterField "priceestimate" "limit" (FloatField (-1));
  AlterField "priceestimate" "total" (FloatField 0);
  AlterUniqueTogether "defaultpricelistitem"
    [["key"; "item_type"; "resource_content_type"]];
  AlterUniqueTogether "priceestimate"
    [["content_type"; "object_id"; "month"; "year"]];
  RemoveField "priceestimate" "is_manually_input";
  RemoveField "priceestimate" "is_visible"
].

(** The state of one model of the application and of the application. *)
Record ModelState := {
  fields : list (string * Field);
  options_unique_together : list (list string)
}.

(** How an operation changes the state; a model that is not there is a
    [KeyError]. *)
Definition state_forwards (operation : Operation) (state : gmap string ModelState)
    : result (gmap string ModelState) :=
  match operation with
  | AlterField model_name name field =>
    match state !! model_name with
    | None => Raise (KeyError model_name)
    | Some model =>
      Ok (<[model_name := {|
            fields := (λ nf, (nf.1, if decide (nf.1 = name) then field else nf.2))
                        <$> fields model;
            options_unique_together := options_unique_together model |}]> state)
    end
  | AlterUniqueTogether name unique_together =>
    match state !! name with
    | None => Raise (KeyError name)
    | Some model =>
      Ok (<[name := {| fields := fields model;
                       options_unique_together := unique_together |}]> state)
    end
  | RemoveField model_name name =>
    match state !! model_name with
    | None => Raise (KeyError model_name)
    | Some model =>
      Ok (<[model_name := {|
            fields := filter (λ nf, nf.1 ≠ name) (fields model);
            options_unique_together := options_unique_together model |}]> state)
    end
  end.

(** The operations of a migration, applied in their order. *)
Fixpoint mutate_state (operations : list Operation) (state : gmap string ModelState)
    : result (gmap string ModelState) :=
  match operations with
  | [] => Ok state
  | operation :: rest => state' ← state_forwards operation state; mutate_state rest state'
  end.

(** The [unique_together] of a model in a state. *)
Definition unique_together_of (state : gmap string ModelState) (model_name : string)
    : list (list string) :=
  default [] (options_unique_together <$> state !! model_name).

(** *** The table under its unique constraints *)

Inductive sql_value :=
  | NULL
  | Integer (z : Z)
  | Real (mantissa exponent : Z)
  | Text (s : string).

#[global] Instance sql_value_eq_dec : EqDecision sql_value.
Proof. solve_decision. Defined.

(** A row maps column names to values; a table maps primary keys to rows. *)
Definition column (name : string) (row : gmap string sql_value) : sql_value :=
  default NULL (row !! name).

(** The values of a row in the columns of a constraint, unless one of them
    is NULL: a unique constraint does not compare such a row. *)
Definition constrained (columns : list string) (row : gmap string sql_value)
    : option (list sql_value) :=
  let values := (λ name, column name row) <$> columns in
  if decide (NULL ∈ values) then None else Some values.

(** Two rows that one constraint does not admit together. *)
Definition conflicts (columns : list string) (row row' : gmap string sql_value) : Prop :=
  is_Some (constrained columns row) ∧ constrained columns row = constrained columns row'.

(** No row other than the one of key [pk] conflicts with [row]. *)
Definition admits (unique_together : list (list string)) (pk : nat)
    (row : gmap string sql_value) (table : gmap nat (gmap string sql_value)) : Prop :=
  Forall (λ columns,
    map_Forall (λ pk' row', pk' ≠ pk → ¬ conflicts columns row row') table)
    unique_together.

(** The constraints hold in a table. *)
Definition unique (unique_together : list (list string))
    (table : gmap nat (gmap string sql_value)) : Prop :=
  Forall (λ columns,
    map_Forall (λ pk row,
      map_Forall (λ pk' row', conflicts columns row row' → pk = pk') table) table)
    unique_together.

(** Writing [row] under the key [pk]: refused when a constraint is violated. *)
Definition save (unique_together : list (list string)) (pk : nat)
    (row : gmap string sql_value) (table : gmap nat (gmap string sql_value))
    : result (gmap nat (gmap string sql_value)) :=
  if decide (admits unique_together pk row table) then Ok (<[pk := row]> table)
  else Raise IntegrityError.

(** Creating the unique indexes on the rows that are there. *)
Definition alter_unique_together (unique_together : list (list string))
    (table : gmap nat (gmap string sql_value))
    : result (gmap nat (gmap string sql_value)) :=
  if decide (unique unique_together table) then Ok table else Raise IntegrityError.

(** What changes the rows of the table. *)
Inductive statement :=
  | INSERT (row : gmap string sql_value)
  | UPDATE (pk : nat) (row : gmap string sql_value)
  | DELETE (pk : nat).

Definition execute (unique_together : list (list string)) (stmt : statement)
    (table : gmap nat (gmap string sql_value))
    : result (gmap nat (gmap string sql_value)) :=
  match stmt with
  | INSERT row => save unique_together (fresh (dom table)) row table
  | UPDATE pk row =>
    match table !! pk with
    | None => Ok table
    | Some _ => save unique_together pk row table
    end
  | DELETE pk => Ok (delete pk table)
  end.

(** A statement that raises is rolled back. *)
Definition run (unique_together : list (list string))
    (table : gmap nat (gmap string sql_value)) (stmt : statement)
    : gmap nat (gmap string sql_value) :=
  match execute unique_together stmt table with
  | Ok table' => table'
  | Raise _ => table
  end.

(** A row is the estimate of a scope for a month of a year. *)
Definition estimate_of (content_type object_id month year : Z)
    (row : gmap string sql_value) : Prop :=
  column "content_type" row = Integer content_type
  ∧ column "object_id" row = Integer object_id
  ∧ column "month" row = Integer month
  ∧ column "year" row = Integer year.

(** A state before the migration: the two models, the price estimates
    unique per scope, month, year and kind of input. *)
Definition state_0023 : gmap string ModelState :=
  {[ "defaultpricelistitem" := {|
       fields := [("item_type", CharField 30); ("key", CharField 50);
                  ("metadata", JSONField false)];
       options_unique_together := [] |};
     "priceestimate" := {|
       fields := [("consumed", FloatField 0); ("details", JSONField false);
                  ("limit", FloatField (-1)); ("total", FloatField 0);
                  ("is_manually_input", FloatField 0);
                  ("is_visible", FloatField 0)];
       options_unique_together :=
         [["content_type"; "object_id"; "month"; "year"; "is_manually_input"]] |} ]}.

(** An estimate row. *)
Definition estimate_row (content_type object_id month year total : Z)
    : gmap string sql_value :=
  {[ "content_type" := Integer content_type; "object_id" := Integer object_id;
     "month" := Integer month; "year" := Integer year;
     "total" := Real total 0; "limit" := Real (-1) 0 ]}.

(** An estimate whose scope is gone: its [object_id] is NULL. *)
Definition orphan_row (content_type month year : Z) : gmap string sql_value :=
  {[ "content_type" := Integer content_type; "object_id" := NULL;
     "month" := Integer month; "year" := Integer year ]}.

(** What the migration makes of a field of [priceestimate] and of one of
    [defaultpricelistitem]: dropped, redefined or left as it is. *)
Definition migrated_estimate_field (nf : string * Field) : option (string * Field) :=
  if decide (nf.1 = "is_manually_input" ∨ nf.1 = "is_visible") then None
  else if decide (nf.1 = "consumed") then Some (nf.1, FloatField 0)
  else if decide (nf.1 = "details") then Some (nf.1, JSONField true)
  else if decide (nf.1 = "limit") then Some (nf.1, FloatField (-1))
  else if decide (nf.1 = "total") then Some (nf.1, FloatField 0)
  else Some nf.

Definition migrated_default_field (nf : string * Field) : string * Field :=
  if decide (nf.1 = "item_type") then (nf.1, CharField 255)
  else if decide (nf.1 = "key") then (nf.1, CharField 255)
  else if decide (nf.1 = "metadata") then (nf.1, JSONField true)
  else nf.

(** *** Facts *)

Section Facts.

Implicit Types (unique_together : list (list string)) (columns : list string)
  (row : gmap string sql_value) (table : gmap nat (gmap string sql_value))
  (stmt : statement) (state : gmap string ModelState).

Lemma conflicts_sym columns row row' :
  conflicts columns row row' → conflicts columns row' row.
Proof. unfold conflicts. intros [Hsome Heq]. by rewrite <- Heq. Qed.

Lemma unique_lookup unique_together table :
  unique unique_together table ↔
  ∀ columns pk pk' row row',
    columns ∈ unique_together →
    table !! pk = Some row → table !! pk' = Some row' →
    conflicts columns row row' → pk = pk'.
Proof.
  unfold unique. rewrite Forall_forall. split.
  - intros Hu columns pk pk' row row' Hc Hrow Hrow'.
    exact (Hu columns Hc pk row Hrow pk' row' Hrow').
  - intros Hu columns Hc pk row Hrow pk' row' Hrow'. by eapply Hu.
Qed.

Lemma save_unique unique_together pk row table table' :
  unique unique_together table →
  save unique_together pk row table = Ok table' →
  unique unique_together table'.
Proof.
  unfold save. intros Hu Hsave. case_decide as Hadmits; [|done].
  injection Hsave as <-.
  unfold admits in Hadmits. rewrite Forall_forall in Hadmits.
  rewrite unique_lookup in Hu. apply unique_lookup.
  intros columns pk1 pk2 row1 row2 Hc.
  rewrite !lookup_insert.
  destruct (decide (pk = pk1)) as [Heq1|Hne1], (decide (pk = pk2)) as [Heq2|Hne2];
    simpl; intros Hrow1 Hrow2 Hconf.
  - congruence.
  - injection Hrow1 as <-.
    destruct (Hadmits columns Hc pk2 row2 Hrow2); [congruence|done].
  - injection Hrow2 as <-.
    destruct (Hadmits columns Hc pk1 row1 Hrow1); [congruence|].
    by apply conflicts_sym.
  - by eapply Hu.
Qed.

Lemma delete_unique unique_together pk table :
  unique unique_together table → unique unique_together (delete pk table).
Proof.
  rewrite !unique_lookup. intros Hu columns pk1 pk2 row1 row2 Hc.
  intros [_ Hrow1]%lookup_delete_Some [_ Hrow2]%lookup_delete_Some.
  by eapply Hu.
Qed.

Lemma run_unique unique_together table stmt :
  unique unique_together table → unique unique_together (run unique_together table stmt).
Proof.
  intros Hu. unfold run.
  destruct (execute unique_together stmt table) as [table'|e] eqn:Hexec; [|done].
  destruct stmt as [row|pk row|pk]; simpl in Hexec.
  - by eapply save_unique.
  - destruct (table !! pk); [by eapply save_unique|by injection Hexec as <-].
  - injection Hexec as <-. by apply delete_unique.
Qed.

Lemma foldl_run_unique unique_together table (statements : list statement) :
  unique unique_together table →
  unique unique_together (foldl (run unique_together) table statements).
Proof.
  revert table. induction statements as [|stmt statements IH]; intros table Hu.
  - done.
  - simpl. by apply IH, run_unique.
Qed.

Lemma estimate_of_conflicts (content_type object_id month year : Z) row row' :
  estimate_of content_type object_id month year row →
  estimate_of content_type object_id month year row' →
  conflicts ["content_type"; "object_id"; "month"; "year"] row row'.
Proof.
  intros (Hc & Ho & Hm & Hy) (Hc' & Ho' & Hm' & Hy').
  unfold conflicts, constrained. simpl.
  rewrite Hc, Ho, Hm, Hy, Hc', Ho', Hm', Hy'.
  rewrite decide_False; [done|].
  rewrite !elem_of_cons, elem_of_nil. intros [?|[?|[?|[?|[]]]]]; done.
Qed.

Lemma mutate_state_operations state (defaults estimates : ModelState) :
  state !! "defaultpricelistitem" = Some defaults →
  state !! "priceestimate" = Some estimates →
  ∃ state', mutate_state operations state = Ok state'
    ∧ unique_together_of state' "priceestimate" =
      [["content_type"; "object_id"; "month"; "year"]]
    ∧ unique_together_of state' "defaultpricelistitem" =
      [["key"; "item_type"; "resource_content_type"]].
Proof.
  intros Hd He. unfold operations. simpl.
  repeat (rewrite ?lookup_insert_eq, ?Hd, ?He; simpl;
          try rewrite lookup_insert_ne by done; simpl).
  eexists. split; [done|]. unfold unique_together_of.
  split; repeat (rewrite lookup_insert_eq || rewrite lookup_insert_ne by done); done.
Qed.

Lemma mutate_state_operations_inv state state' :
  mutate_state operations state = Ok state' →
  unique_together_of state' "priceestimate" =
  [["content_type"; "object_id"; "month"; "year"]].
Proof.
  intros Hmutate.
  destruct (state !! "defaultpricelistitem") as [defaults|] eqn:Hd;
    [|by simpl in Hmutate; rewrite Hd in Hmutate].
  destruct (state !! "priceestimate") as [estimates|] eqn:He.
  - destruct (mutate_state_operations state defaults estimates Hd He)
      as (state'' & Hmutate' & Hunique & _).
    rewrite Hmutate in Hmutate'. by injection Hmutate' as ->.
  - unfold operations in Hmutate. simpl in Hmutate.
    repeat (rewrite ?lookup_insert_eq, ?Hd in Hmutate; simpl in Hmutate).
    rewrite !lookup_insert_ne, He in Hmutate by done. done.
Qed.

(** C9. Once the migration has run, the price estimates are under the
    constraint that content type, object id, month and year are unique
    together, and every statement that inserts, updates or deletes rows of a
    table that satisfies the constraint leaves a table that satisfies it (a
    statement that would break it is refused and rolled back): whatever the
    statements, the table never holds two estimates of one scope for one
    month of one year. *)
Theorem priceestimate_unique_together state state' table
    (statements : list statement) :
  mutate_state operations state = Ok state' →
  let unique_together := unique_together_of state' "priceestimate" in
  unique unique_together table →
  let table' := foldl (run unique_together) table statements in
  unique_together = [["content_type"; "object_id"; "month"; "year"]]
  ∧ unique unique_together table'
  ∧ ∀ (content_type object_id month year : Z) pk pk' row row',
      table' !! pk = Some row → table' !! pk' = Some row' →
      estimate_of content_type object_id month year row →
      estimate_of content_type object_id month year row' →
      pk = pk'.
Proof.
  intros Hmutate unique_together Hu table'.
  assert (unique unique_together table') as Hu' by by apply foldl_run_unique.
  pose proof (mutate_state_operations_inv _ _ Hmutate) as Hcolumns.
  fold unique_together in Hcolumns.
  split_and!; [done..|].
  intros content_type object_id month year pk pk' row row' Hrow Hrow' Hof Hof'.
  rewrite unique_lookup in Hu'.
  apply (Hu' ["content_type"; "object_id"; "month"; "year"] pk pk' row row');
    [rewrite Hcolumns; left|done..|].
  by eapply estimate_of_conflicts.
Qed.

(** What the creation of the unique indexes leaves satisfies the
    constraints. *)
Lemma alter_unique_together_unique unique_together table table' :
  alter_unique_together unique_together table = Ok table' →
  table' = table ∧ unique unique_together table.
Proof.
  unfold alter_unique_together. case_decide; [|done]. by intros [= <-].
Qed.

(** A second estimate of the scope for the month is refused; one for the next
    month, and one whose scope is NULL, are not. *)
Example insert_duplicate :
  execute [["content_type"; "object_id"; "month"; "year"]]
    (INSERT (estimate_row 12 5 8 2016 100))
    {[ 1%nat := estimate_row 12 5 8 2016 70 ]} = Raise IntegrityError.
Proof. vm_compute. reflexivity. Qed.

Example insert_next_month :
  execute [["content_type"; "object_id"; "month"; "year"]]
    (INSERT (estimate_row 12 5 9 2016 100))
    {[ 1%nat := estimate_row 12 5 8 2016 70 ]} =
  Ok {[ 1%nat := estimate_row 12 5 8 2016 70; 2%nat := estimate_row 12 5 9 2016 100 ]}.
Proof. vm_compute. reflexivity. Qed.

Example insert_orphans :
  execute [["content_type"; "object_id"; "month"; "year"]]
    (INSERT (orphan_row 12 8 2016))
    {[ 1%nat := orphan_row 12 8 2016 ]} =
  Ok {[ 1%nat := orphan_row 12 8 2016; 2%nat := orphan_row 12 8 2016 ]}.
Proof. vm_compute. reflexivity. Qed.

Lemma priceestimate_unique_together_witness :
  let table : gmap nat (gmap string sql_value) :=
    {[ 1%nat := estimate_row 12 5 8 2016 70 ]} in
  let statements :=
    [INSERT (estimate_row 12 5 8 2016 100); INSERT (estimate_row 12 5 9 2016 100);
     UPDATE 2%nat (estimate_row 12 5 8 2016 1)] in
  (∃ state', mutate_state operations state_0023 = Ok state'
     ∧ unique (unique_together_of state' "priceestimate") table
     ∧ unique (unique_together_of state' "priceestimate")
         (foldl (run (unique_together_of state' "priceestimate")) table statements))
  ∧ foldl (run [["content_type"; "object_id"; "month"; "year"]]) table statements =
    {[ 1%nat := estimate_row 12 5 8 2016 70; 2%nat := estimate_row 12 5 9 2016 100 ]}.
Proof.
  intros table statements. split; [|vm_compute; reflexivity].
  destruct (mutate_state_operations state_0023 _ _ eq_refl eq_refl)
    as (state' & Hmutate & Hcolumns & _).
  exists state'.
  assert (unique (unique_together_of state' "priceestimate") table) as Hu.
  { rewrite Hcolumns. apply (bool_decide_unpack _). vm_compute. exact I. }
  split_and!; [done..|].
  exact (proj1 (proj2
    (priceestimate_unique_together state_0023 state' table statements Hmutate Hu))).
Defined.

Lemma migrated_estimate_fields (l : list (string * Field)) :
  filter (λ nf, nf.1 ≠ "is_visible")
    (filter (λ nf, nf.1 ≠ "is_manually_input")
      ((λ nf, (nf.1, if decide (nf.1 = "total") then FloatField 0 else nf.2)) <$>
       ((λ nf, (nf.1, if decide (nf.1 = "limit") then FloatField (-1) else nf.2)) <$>
        ((λ nf, (nf.1, if decide (nf.1 = "details") then JSONField true else nf.2)) <$>
         ((λ nf, (nf.1, if decide (nf.1 = "consumed") then FloatField 0 else nf.2)) <$>
          l))))) =
  omap migrated_estimate_field l.
Proof.
  induction l as [|[n f] l IH]; [done|].
  change (omap migrated_estimate_field ((n, f) :: l)) with
    (match migrated_estimate_field (n, f) with
     | Some nf => nf :: omap migrated_estimate_field l
     | None => omap migrated_estimate_field l
     end).
  rewrite <- IH, !fmap_cons, !filter_cons. unfold migrated_estimate_field. simpl.
  repeat (first [rewrite filter_cons|case_decide]; simpl in *; simplify_eq);
    try done; destruct_or?; simplify_eq; try done; exfalso; auto.
Qed.

Lemma migrated_default_fields (l : list (string * Field)) :
  (λ nf, (nf.1, if decide (nf.1 = "metadata") then JSONField true else nf.2)) <$>
   ((λ nf, (nf.1, if decide (nf.1 = "key") then CharField 255 else nf.2)) <$>
    ((λ nf, (nf.1, if decide (nf.1 = "item_type") then CharField 255 else nf.2)) <$>
     l)) =
  migrated_default_field <$> l.
Proof.
  induction l as [|[n f] l IH]; [done|].
  rewrite !fmap_cons, IH. unfold migrated_default_field at 2. simpl.
  repeat case_decide; simplify_eq; done.
Qed.

(** X3. On a state that has the two models, the migration succeeds and
    touches nothing but them: of [priceestimate] it drops the fields
    [is_manually_input] and [is_visible], redefines [consumed], [details],
    [limit] and [total], and leaves every other field as and where it was;
    of [defaultpricelistitem] it redefines [item_type], [key] and
    [metadata]; it adds no field and sets both [unique_together]s. On a
    state that lacks one of the two models it raises [KeyError]. *)
Theorem mutate_state_operations_fields state :
  match state !! "defaultpricelistitem", state !! "priceestimate" with
  | Some defaults, Some estimates =>
    mutate_state operations state =
    Ok (<["priceestimate" := {|
           fields := omap migrated_estimate_field (fields estimates);
           options_unique_together :=
             [["content_type"; "object_id"; "month"; "year"]] |}]>
        (<["defaultpricelistitem" := {|
            fields := migrated_default_field <$> fields defaults;
            options_unique_together :=
              [["key"; "item_type"; "resource_content_type"]] |}]> state))
  | None, _ => mutate_state operations state = Raise (KeyError "defaultpricelistitem")
  | Some _, None => mutate_state operations state = Raise (KeyError "priceestimate")
  end.
Proof.
  destruct (state !! "defaultpricelistitem") as [defaults|] eqn:Hd;
    [|by simpl; rewrite Hd].
  destruct (state !! "priceestimate") as [estimates|] eqn:He.
  - unfold operations. simpl.
    repeat (rewrite ?lookup_insert_eq, ?Hd, ?He; simpl;
            try rewrite lookup_insert_ne by done; simpl).
    f_equal. rewrite migrated_estimate_fields.
    apply map_eq. intros m.
    destruct (decide (m = "priceestimate")) as [->|Hm];
      [by rewrite !lookup_insert_eq|].
    rewrite !(lookup_insert_ne _ "priceestimate") by done.
    destruct (decide (m = "defaultpricelistitem")) as [->|Hm'].
    + rewrite !lookup_insert_eq. by rewrite migrated_default_fields.
    + by rewrite !lookup_insert_ne.
  - unfold operations. simpl.
    repeat (rewrite ?lookup_insert_eq, ?Hd; simpl).
    by rewrite !lookup_insert_ne, He.
Qed.

End Facts.

End PriceEstimates.

(** ** Security groups: the API behind [test_security_groups.py] *)

Module SecurityGroups.

(** Modelled from the spec: [SynchronizationStates] of
    [nodeconductor.core.mixins] is not among the sources; these are the states
    the specification names. *)
Inductive SynchronizationStates := CREATING | IN_SYNC | SYNCING | ERRED.

#[global] Instance SynchronizationStates_eq_dec : EqDecision SynchronizationStates.
Proof. solve_decision. Defined.

(** The status codes the tests compare responses with. *)
Inductive status :=
  | HTTP_200_OK
  | HTTP_201_CREATED
  | HTTP_202_ACCEPTED
  | HTTP_400_BAD_REQUEST
  | HTTP_404_NOT_FOUND
  | HTTP_409_CONFLICT.

#[global] Instance status_eq_dec : EqDecision status.
Proof. solve_decision. Defined.

(** The provider tasks the tests patch in [nodeconductor.iaas.tasks]. *)
Inductive task :=
  | create_security_group
  | update_security_group
  | delete_security_group.

#[global] Instance task_eq_dec : EqDecision task.
Proof. solve_decision. Defined.

(** A rule, as the tests post it. *)
Record SecurityGroupRule := {
  protocol : string;
  from_port : Z;
  to_port : Z;
  cidr : string
}.

#[global] Instance SecurityGroupRule_eq_dec : EqDecision SecurityGroupRule.
Proof. solve_decision. Defined.

Record SecurityGroup := {
  uuid : nat;
  name : string;
  description : string;
  cloud_project_membership : nat;
  state : SynchronizationStates;
  rules : list SecurityGroupRule
}.

#[global] Instance SecurityGroup_eq_dec : EqDecision SecurityGroup.
Proof. solve_decision. Defined.

(** What the API reads and writes: the stored security groups, the quota
    limits set on memberships (by membership and quota name; none set is no
    limit) and the calls of [delay] on the provider tasks, each with the
    [uuid] it was given. *)
Record Database := {
  objects : list SecurityGroup;
  quota_limits : gmap (nat * string) nat;
  delayed : list (task * nat)
}.

(** Modelled from the spec: [membership.set_quota_limit(quota_name, limit)],
    which the tests call and the sources do not define, sets the limit of a
    named quota of the membership. *)
Definition set_quota_limit (membership : nat) (quota_name : string) (limit : nat)
    (db : Database) : Database := {|
  objects := objects db;
  quota_limits := <[(membership, quota_name) := limit]> (quota_limits db);
  delayed := delayed db
|}.

(** Modelled from the spec: the quota bookkeeping of the membership is not
    among the sources. Each security group of a membership counts against its
    ["security_group_count"] and each of their rules against its
    ["security_group_rule_count"]. *)
Definition quota_usage (groups : list SecurityGroup) (membership : nat)
    (quota_name : string) : nat :=
  let own := filter (λ group, cloud_project_membership group = membership) groups in
  if decide (quota_name = "security_group_count") then length own
  else if decide (quota_name = "security_group_rule_count") then
    sum_list ((λ group, length (rules group)) <$> own)
  else 0.

(** Modelled from the spec: a quota is exceeded by the groups a mutation
    would leave when their usage is above the limit that is set. *)
Definition quota_exceeded (db : Database) (groups : list SecurityGroup)
    (membership : nat) (quota_name : string) : bool :=
  match quota_limits db !! (membership, quota_name) with
  | None => false
  | Some limit => bool_decide (limit < quota_usage groups membership quota_name)
  end.

Definition over_quota (db : Database) (groups : list SecurityGroup)
    (membership : nat) : bool :=
  quota_exceeded db groups membership "security_group_count"
  || quota_exceeded db groups membership "security_group_rule_count".

(** Modelled from the spec: the state gate of the view (the view and its
    mixin are not among the sources). An update is let through in [IN_SYNC]
    alone. *)
Definition updatable (s : SynchronizationStates) : bool :=
  bool_decide (s = IN_SYNC).

(** Modelled from the spec: the gate of a delete as the specification words
    it, open in [IN_SYNC] and in [ERRED]. *)
Definition deletable_as_specified (s : SynchronizationStates) : bool :=
  bool_decide (s = IN_SYNC ∨ s = ERRED).

(** Modelled from the spec: the gate of a delete, open in [IN_SYNC];
    [ERRED] is shut, as
    [test_security_group_can_not_be_deleted_in_unstable_state] asserts. *)
Definition deletable (s : SynchronizationStates) : bool :=
  bool_decide (s = IN_SYNC).

(** The body of a POST. *)
Record CreateData := {
  post_name : string;
  post_description : string;
  post_cloud_project_membership : nat;
  post_rules : list SecurityGroupRule
}.

(** The body of a PATCH: the fields it carries. *)
Record UpdateData := {
  patch_name : option string;
  patch_cloud_project_membership : option nat;
  patch_rules : option (list SecurityGroupRule)
}.

(** Modelled from the spec: the unique identifier of a new group; any
    identifier that no stored group has will do. *)
Definition new_uuid (groups : list SecurityGroup) : nat :=
  S (max_list (uuid <$> groups)).

(** Modelled from the spec: the view's lookup of the group a URL names, by
    [uuid]; the position and the record of the group. *)
Definition get_object (db : Database) (uuid' : nat) : option (nat * SecurityGroup) :=
  list_find (λ group, uuid group = uuid') (objects db).

(** Modelled from the spec: [create] of the specification (the view is not
    among the sources). A creation that would exceed a quota is a validation
    error and writes nothing; otherwise the group is stored in [CREATING] and
    the provider's create task is delayed with its [uuid]. *)
Definition create (db : Database) (data : CreateData) : Database * status :=
  let group := {|
    uuid := new_uuid (objects db);
    name := post_name data;
    description := post_description data;
    cloud_project_membership := post_cloud_project_membership data;
    state := CREATING;
    rules := post_rules data |} in
  let groups := objects db ++ [group] in
  if over_quota db groups (post_cloud_project_membership data) then
    (db, HTTP_400_BAD_REQUEST)
  else
    ({| objects := groups;
        quota_limits := quota_limits db;
        delayed := delayed db ++ [(create_security_group, uuid group)] |},
     HTTP_201_CREATED).

(** Modelled from the spec: the group an accepted update stores, with the
    fields of the PATCH written to it and its state [SYNCING]. *)
Definition patched (group : SecurityGroup) (data : UpdateData) : SecurityGroup := {|
  uuid := uuid group;
  name := default (name group) (patch_name data);
  description := description group;
  cloud_project_membership := cloud_project_membership group;
  state := SYNCING;
  rules := default (rules group) (patch_rules data)
|}.

(** Modelled from the spec: what makes an update a validation error. A
    change of the membership is one
    ([test_security_group_cloud_project_membership_can_not_be_updated] sees
    it refused), and so is a change that would exceed a quota. *)
Definition validates (db : Database) (i : nat) (group : SecurityGroup)
    (data : UpdateData) : bool :=
  negb (bool_decide (is_Some (patch_cloud_project_membership data)))
  && negb (over_quota db (<[i := patched group data]> (objects db))
             (cloud_project_membership group)).

(** Modelled from the spec: [update] of the specification. Outside [IN_SYNC]
    it is a conflict; in [IN_SYNC] changes that do not validate are a
    validation error; neither writes anything. Otherwise the changes are
    stored, the group goes to [SYNCING] and the provider's update task is
    delayed with its [uuid]. *)
Definition update (db : Database) (uuid' : nat) (data : UpdateData)
    : Database * status :=
  match get_object db uuid' with
  | None => (db, HTTP_404_NOT_FOUND)
  | Some (i, group) =>
    if negb (updatable (state group)) then (db, HTTP_409_CONFLICT)
    else if negb (validates db i group data) then (db, HTTP_400_BAD_REQUEST)
    else
      ({| objects := <[i := patched group data]> (objects db);
          quota_limits := quota_limits db;
          delayed := delayed db ++ [(update_security_group, uuid group)] |},
       HTTP_200_OK)
  end.

(** Modelled from the spec: [delete] of the specification, under a gate.
    Where the gate is shut it is a conflict and writes nothing; otherwise the
    group goes to [SYNCING], the provider's delete task is delayed with its
    [uuid] and the answer is 202: the record stays until the provider has
    confirmed. *)
Definition destroy_under (gate : SynchronizationStates → bool) (db : Database)
    (uuid' : nat) : Database * status :=
  match get_object db uuid' with
  | None => (db, HTTP_404_NOT_FOUND)
  | Some (i, group) =>
    if negb (gate (state group)) then (db, HTTP_409_CONFLICT)
    else
      let group' := {|
        uuid := uuid group;
        name := name group;
        description := description group;
        cloud_project_membership := cloud_project_membership group;
        state := SYNCING;
        rules := rules group |} in
      ({| objects := <[i := group']> (objects db);
          quota_limits := quota_limits db;
          delayed := delayed db ++ [(delete_security_group, uuid group)] |},
       HTTP_202_ACCEPTED)
  end.

Definition destroy : Database → nat → Database * status := destroy_under deletable.

(** The API a test client talks to. *)
Record Client := {
  post : Database → CreateData → Database * status;
  patch : Database → nat → UpdateData → Database * status;
  delete : Database → nat → Database * status
}.

Definition client : Client :=
  {| post := create; patch := update; delete := destroy |}.

(** The API with the delete gate as the specification words it. *)
Definition client_as_specified : Client :=
  {| post := create; patch := update; delete := destroy_under deletable_as_specified |}.

(** *** The tests of [test_security_groups.py], run against a client

    Every test authenticates a user who may do what it does; users and
    permissions are left out. Each test returns whether its assertions
    hold. *)

Definition membership : nat := 1.

(** [models.SecurityGroup.objects.filter(name=...).exists()] *)
Definition name_exists (db : Database) (name' : string) : bool :=
  bool_decide (Exists (λ group, name group = name') (objects db)).

(** [mocked_task.delay.assert_called_once_with(uuid)] *)
Definition called_once_with (db : Database) (t : task) (uuid' : nat) : bool :=
  bool_decide ((filter (λ call, call.1 = t) (delayed db)) = [(t, uuid')]).

(** [setUp] of [SecurityGroupCreateTest] *)
Definition valid_data : CreateData := {|
  post_name := "test_security_group";
  post_description := "test security_group description";
  post_cloud_project_membership := membership;
  post_rules := [{| protocol := "tcp"; from_port := 1; to_port := 10;
                    cidr := "test_cidr" |}]
|}.

Definition setUp_create : Database :=
  {| objects := []; quota_limits := ∅; delayed := [] |}.

Definition test_can_create_security_group (c : Client) : bool :=
  let response := post c setUp_create valid_data in
  bool_decide (response.2 = HTTP_201_CREATED)
  && name_exists response.1 (post_name valid_data).

Definition test_security_group_can_not_be_created_if_quota_is_over_limit
    (c : Client) : bool :=
  let db := set_quota_limit membership "security_group_count" 0 setUp_create in
  let response := post c db valid_data in
  bool_decide (response.2 = HTTP_400_BAD_REQUEST)
  && negb (name_exists response.1 (post_name valid_data)).

Definition test_security_group_can_not_be_created_if_rules_quota_is_over_limit
    (c : Client) : bool :=
  let db := set_quota_limit membership "security_group_rule_count" 0 setUp_create in
  let response := post c db valid_data in
  bool_decide (response.2 = HTTP_400_BAD_REQUEST)
  && negb (name_exists response.1 (post_name valid_data)).

Definition test_security_group_creation_starts_sync_task (c : Client) : bool :=
  let response := post c setUp_create valid_data in
  bool_decide (response.2 = HTTP_201_CREATED)
  && match list_find (λ group, name group = post_name valid_data)
             (objects response.1) with
     | Some (_, security_group) =>
       called_once_with response.1 create_security_group (uuid security_group)
     | None => false
     end.

(** [setUp] of [SecurityGroupUpdateTest] and of [SecurityGroupDeleteTest]: a
    security group of the membership, made by the factory in [IN_SYNC]. *)
Definition security_group : SecurityGroup := {|
  uuid := 17;
  name := "security_group_0";
  description := "";
  cloud_project_membership := membership;
  state := IN_SYNC;
  rules := []
|}.

Definition setUp : Database :=
  {| objects := [security_group]; quota_limits := ∅; delayed := [] |}.

(** [self.security_group.state = SynchronizationStates.ERRED] and [save()] *)
Definition security_group_erred : SecurityGroup := {|
  uuid := uuid security_group;
  name := name security_group;
  description := description security_group;
  cloud_project_membership := cloud_project_membership security_group;
  state := ERRED;
  rules := rules security_group
|}.

Definition setUp_erred : Database :=
  {| objects := [security_group_erred]; quota_limits := ∅; delayed := [] |}.

Definition udp_rules : list SecurityGroupRule :=
  [{| protocol := "udp"; from_port := 100; to_port := 8001; cidr := "test_cidr" |}].

(** [models.SecurityGroup.objects.get(pk=self.security_group.pk)] *)
Definition reread (db : Database) : option SecurityGroup :=
  snd <$> get_object db (uuid security_group).

Definition test_project_administrator_can_update_security_group_rules
    (c : Client) : bool :=
  let response := patch c setUp (uuid security_group)
    {| patch_name := None; patch_cloud_project_membership := None;
       patch_rules := Some udp_rules |} in
  bool_decide (response.2 = HTTP_200_OK)
  && bool_decide (rules <$> reread response.1 = Some udp_rules).

Definition test_security_group_can_not_be_updated_in_unstable_state
    (c : Client) : bool :=
  let response := patch c setUp_erred (uuid security_group)
    {| patch_name := None; patch_cloud_project_membership := None;
       patch_rules := Some [] |} in
  bool_decide (response.2 = HTTP_409_CONFLICT).

Definition test_security_group_cloud_project_membership_can_not_be_updated
    (c : Client) : bool :=
  let response := patch c setUp (uuid security_group)
    {| patch_name := None; patch_cloud_project_membership := Some 2;
       patch_rules := None |} in
  bool_decide (response.2 = HTTP_400_BAD_REQUEST)
  && bool_decide (cloud_project_membership <$> reread response.1 = Some membership).

Definition test_security_group_rules_can_not_be_updated_if_rules_quota_is_over_limit
    (c : Client) : bool :=
  let db := set_quota_limit membership "security_group_rule_count" 0 setUp in
  let response := patch c db (uuid security_group)
    {| patch_name := None; patch_cloud_project_membership := None;
       patch_rules := Some udp_rules |} in
  bool_decide (response.2 = HTTP_400_BAD_REQUEST)
  && bool_decide (length ∘ rules <$> reread response.1
                  = Some (length (rules security_group))).

Definition test_security_group_update_starts_sync_task (c : Client) : bool :=
  let response := patch c setUp (uuid security_group)
    {| patch_name := Some "new_name"; patch_cloud_project_membership := None;
       patch_rules := None |} in
  bool_decide (response.2 = HTTP_200_OK)
  && called_once_with response.1 update_security_group (uuid security_group).

Definition test_project_administrator_can_delete_security_group (c : Client) : bool :=
  let response := delete c setUp (uuid security_group) in
  bool_decide (response.2 = HTTP_202_ACCEPTED)
  && called_once_with response.1 delete_security_group (uuid security_group).

Definition test_security_group_can_not_be_deleted_in_unstable_state
    (c : Client) : bool :=
  let response := delete c setUp_erred (uuid security_group) in
  bool_decide (response.2 = HTTP_409_CONFLICT).

(** The module's tests, in their order. *)
Definition tests : list (Client → bool) := [
  test_can_create_security_group;
  test_security_group_can_not_be_created_if_quota_is_over_limit;
  test_security_group_can_not_be_created_if_rules_quota_is_over_limit;
  test_security_group_creation_starts_sync_task;
  test_project_administrator_can_update_security_group_rules;
  test_security_group_can_not_be_updated_in_unstable_state;
  test_security_group_cloud_project_membership_can_not_be_updated;
  test_security_group_rules_can_not_be_updated_if_rules_quota_is_over_limit;
  test_security_group_update_starts_sync_task;
  test_project_administrator_can_delete_security_group;
  test_security_group_can_not_be_deleted_in_unstable_state
].

(** *** Facts *)

Lemma tests_pass : (λ test, test client) <$> tests = replicate 11 true.
Proof. vm_compute. reflexivity. Qed.

Section Facts.

Implicit Types (db : Database) (group : SecurityGroup)
  (groups : list SecurityGroup) (data : CreateData).

Lemma get_object_Some db (uuid' i : nat) group :
  get_object db uuid' = Some (i, group) →
  objects db !! i = Some group ∧ uuid group = uuid'.
Proof.
  unfold get_object. intros (Hlookup & Huuid & _)%list_find_Some. done.
Qed.

Lemma new_uuid_fresh groups : new_uuid groups ∉ uuid <$> groups.
Proof. apply max_list_not_elem_of_gt. unfold new_uuid. lia. Qed.

Lemma group_count_elem_of groups group :
  group ∈ groups →
  0 < quota_usage groups (cloud_project_membership group) "security_group_count".
Proof.
  intros Hin. unfold quota_usage. rewrite decide_True by done.
  assert (group ∈ filter (λ group', cloud_project_membership group'
                                     = cloud_project_membership group) groups)
    as Hown by by apply list_elem_of_filter.
  destruct (filter _ groups); [by apply elem_of_nil in Hown|simpl; lia].
Qed.

Lemma rule_count_elem_of groups group :
  group ∈ groups →
  (length (rules group) ≤
   quota_usage groups (cloud_project_membership group) "security_group_rule_count")%nat.
Proof.
  intros Hin. unfold quota_usage.
  rewrite decide_False, decide_True by done.
  induction groups as [|group' groups IH]; [by apply elem_of_nil in Hin|].
  rewrite filter_cons. apply elem_of_cons in Hin as [<-|Hin].
  - rewrite decide_True by done. simpl. lia.
  - specialize (IH Hin). case_decide; [|exact IH].
    unfold fmap in *. simpl. lia.
Qed.

Lemma over_quota_group_count db groups group :
  quota_limits db !! (cloud_project_membership group, "security_group_count") = Some 0 →
  group ∈ groups →
  over_quota db groups (cloud_project_membership group) = true.
Proof.
  intros Hlimit Hin. unfold over_quota, quota_exceeded. rewrite Hlimit.
  rewrite bool_decide_eq_true_2; [done|]. by apply group_count_elem_of.
Qed.

Lemma over_quota_rule_count db groups group :
  quota_limits db !! (cloud_project_membership group, "security_group_rule_count")
    = Some 0 →
  group ∈ groups →
  rules group ≠ [] →
  over_quota db groups (cloud_project_membership group) = true.
Proof.
  intros Hlimit Hin Hrules. unfold over_quota, quota_exceeded. rewrite Hlimit.
  rewrite (bool_decide_eq_true_2 (0 < _)); [by rewrite orb_true_r|].
  pose proof (rule_count_elem_of groups group Hin).
  destruct (rules group); [done|simpl in *; lia].
Qed.

(** A call that is refused answers with the database as it was. *)
Lemma create_refused db data db' :
  create db data = (db', HTTP_400_BAD_REQUEST) → db' = db.
Proof. unfold create. case_match; by intros [= <-]. Qed.

Lemma destroy_under_inv gate db (uuid' : nat) db' (st : status) :
  destroy_under gate db uuid' = (db', st) →
  (st = HTTP_404_NOT_FOUND ∧ db' = db ∧ get_object db uuid' = None)
  ∨ (∃ i group, get_object db uuid' = Some (i, group)
       ∧ gate (state group) = false ∧ st = HTTP_409_CONFLICT ∧ db' = db)
  ∨ (∃ i group, get_object db uuid' = Some (i, group)
       ∧ gate (state group) = true ∧ st = HTTP_202_ACCEPTED
       ∧ length (objects db') = length (objects db)
       ∧ state <$> (snd <$> get_object db' uuid') = Some SYNCING
       ∧ delayed db' = delayed db ++ [(delete_security_group, uuid')]).
Proof.
  unfold destroy_under.
  destruct (get_object db uuid') as [[i group]|] eqn:Hget.
  - destruct (gate (state group)) eqn:Hgate; simpl; intros [= <- <-].
    + right; right. exists i, group.
      pose proof (get_object_Some _ _ _ _ Hget) as [Hlookup Huuid].
      split_and!; try done.
      * simpl. by rewrite length_insert.
      * unfold get_object in *. simpl.
        apply list_find_Some in Hget as (_ & _ & Hfirst).
        match goal with
        | |- context [list_find ?P (<[i:=?g]> ?l)] =>
          assert (list_find P (<[i:=g]> l) = Some (i, g)) as ->; [|done]
        end.
        apply list_find_Some. split_and!.
        -- apply list_lookup_insert_eq. by eapply lookup_lt_Some.
        -- done.
        -- intros j y Hj Hlt. rewrite list_lookup_insert_ne in Hj by lia.
           by eapply Hfirst.
      * simpl. by rewrite Huuid.
    + right; left. by exists i, group.
  - intros [= <- <-]. by left.
Qed.

Lemma create_inv db data db' (st : status) :
  create db data = (db', st) →
  (st = HTTP_400_BAD_REQUEST ∧ db' = db)
  ∨ (st = HTTP_201_CREATED
     ∧ ∃ group, objects db' = (objects db ++ [group])
         ∧ (uuid group ∉ uuid <$> objects db)
         ∧ state group = CREATING
         ∧ delayed db' = delayed db ++ [(create_security_group, uuid group)]).
Proof.
  unfold create. case_match; intros [= <- <-]; [by left|].
  right. split; [done|]. eexists. split_and!; [done| |done..].
  apply new_uuid_fresh.
Qed.

Lemma update_inv db (uuid' : nat) (data : UpdateData) db' (st : status) :
  update db uuid' data = (db', st) →
  (st = HTTP_404_NOT_FOUND ∧ db' = db ∧ get_object db uuid' = None)
  ∨ (∃ i group, get_object db uuid' = Some (i, group)
       ∧ updatable (state group) = false ∧ st = HTTP_409_CONFLICT ∧ db' = db)
  ∨ (∃ i group, get_object db uuid' = Some (i, group)
       ∧ updatable (state group) = true ∧ validates db i group data = false
       ∧ st = HTTP_400_BAD_REQUEST ∧ db' = db)
  ∨ (∃ i group, get_object db uuid' = Some (i, group)
       ∧ updatable (state group) = true ∧ validates db i group data = true
       ∧ st = HTTP_200_OK
       ∧ objects db' = <[i := patched group data]> (objects db)
       ∧ delayed db' = delayed db ++ [(update_security_group, uuid')]).
Proof.
  unfold update.
  destruct (get_object db uuid') as [[i group]|] eqn:Hget;
    [|intros [= <- <-]; by left].
  pose proof (get_object_Some _ _ _ _ Hget) as [Hlookup Huuid].
  destruct (updatable (state group)) eqn:Hgate; simpl;
    [|intros [= <- <-]; right; left; by exists i, group].
  destruct (validates db i group data) eqn:Hvalid; simpl; intros [= <- <-].
  - do 3 right. exists i, group. split_and!; try done.
    simpl. by rewrite Huuid.
  - right; right; left. by exists i, group.
Qed.

Lemma updatable_true (s : SynchronizationStates) : updatable s = true ↔ s = IN_SYNC.
Proof. unfold updatable. by rewrite bool_decide_eq_true. Qed.

Lemma deletable_true (s : SynchronizationStates) : deletable s = true ↔ s = IN_SYNC.
Proof. unfold deletable. by rewrite bool_decide_eq_true. Qed.

(** C1, as the code has it. A delete of a stored security group is accepted,
    with 202, exactly when the group is [IN_SYNC]; attempted while the group
    is [ERRED], [SYNCING] or [CREATING] it is a conflict (409) that leaves the
    group's state, and everything else, as it was. *)
Theorem destroy_in_sync_only db (uuid' i : nat) group :
  get_object db uuid' = Some (i, group) →
  ((destroy db uuid').2 = HTTP_202_ACCEPTED ↔ state group = IN_SYNC)
  ∧ (state group ∈ [ERRED; SYNCING; CREATING] →
     destroy db uuid' = (db, HTTP_409_CONFLICT)).
Proof.
  intros Hget. unfold destroy, destroy_under. rewrite Hget.
  destruct (deletable (state group)) eqn:Hgate; simpl.
  - apply deletable_true in Hgate. split; [done|].
    rewrite Hgate, !elem_of_cons, elem_of_nil. intros [?|[?|[?|[]]]]; done.
  - split; [|done]. split; [done|].
    intros Hs%deletable_true. congruence.
Qed.

(** C2. An update of a stored security group passes the state gate exactly
    when the group is [IN_SYNC]: attempted in [CREATING], [SYNCING] or
    [ERRED] it is a conflict (409) and nothing is written, and the answer is
    a conflict in no other case. Changes that validate are accepted (200)
    exactly when the group is [IN_SYNC]; changes that do not are, in
    [IN_SYNC], a validation error that writes nothing either. *)
Theorem update_in_sync_only db (uuid' i : nat) group (data : UpdateData) :
  get_object db uuid' = Some (i, group) →
  (state group ∈ [CREATING; SYNCING; ERRED] →
     update db uuid' data = (db, HTTP_409_CONFLICT))
  ∧ ((update db uuid' data).2 = HTTP_409_CONFLICT ↔ state group ≠ IN_SYNC)
  ∧ ((update db uuid' data).2 = HTTP_200_OK ↔
     state group = IN_SYNC ∧ validates db i group data = true)
  ∧ (state group = IN_SYNC → validates db i group data = false →
     update db uuid' data = (db, HTTP_400_BAD_REQUEST)).
Proof.
  intros Hget.
  destruct (update db uuid' data) as [db' st] eqn:Hupdate.
  apply update_inv in Hupdate
    as [(_ & _ & Hnone)|[(i' & group' & Hget' & Hgate & -> & ->)
       |[(i' & group' & Hget' & Hgate & Hvalid & -> & ->)
        |(i' & group' & Hget' & Hgate & Hvalid & -> & _)]]];
    [congruence|rewrite Hget in Hget'; injection Hget' as <- <-..]; simpl.
  - assert (state group ≠ IN_SYNC) as Hstate
      by (intros Hs%updatable_true; congruence).
    split_and!; try done. split; [done|]. by intros [??].
  - apply updatable_true in Hgate.
    split_and!; try done.
    + rewrite Hgate, !elem_of_cons, elem_of_nil. intros [?|[?|[?|[]]]]; done.
    + split; [done|]. intros [_ ?]. congruence.
  - apply updatable_true in Hgate.
    split_and!; try done.
    + rewrite Hgate, !elem_of_cons, elem_of_nil. intros [?|[?|[?|[]]]]; done.
    + intros _ ?. congruence.
Qed.

(** C5. With the limit of the membership's security-group quota at 0, every
    creation of a security group of the membership is a validation error
    (400); with the limit of its rule quota at 0, so is every creation of a
    group with rules and every update that gives a group in [IN_SYNC] rules.
    The database such a call answers with is the one it was given: no
    group, no rule and no task is written. *)
Theorem quota_limit_zero db data :
  let membership' := post_cloud_project_membership data in
  (quota_limits db !! (membership', "security_group_count") = Some 0 →
     create db data = (db, HTTP_400_BAD_REQUEST))
  ∧ (quota_limits db !! (membership', "security_group_rule_count") = Some 0 →
     post_rules data ≠ [] →
     create db data = (db, HTTP_400_BAD_REQUEST))
  ∧ (let db0 := set_quota_limit membership' "security_group_count" 0 db in
     create db0 data = (db0, HTTP_400_BAD_REQUEST))
  ∧ (let db0 := set_quota_limit membership' "security_group_rule_count" 0 db in
     post_rules data ≠ [] →
     create db0 data = (db0, HTTP_400_BAD_REQUEST))
  ∧ (∀ (uuid' i : nat) group (name' : option string) (rules' : list SecurityGroupRule),
     get_object db uuid' = Some (i, group) →
     state group = IN_SYNC →
     quota_limits db !! (cloud_project_membership group, "security_group_rule_count")
       = Some 0 →
     rules' ≠ [] →
     update db uuid' {| patch_name := name'; patch_cloud_project_membership := None;
                        patch_rules := Some rules' |}
     = (db, HTTP_400_BAD_REQUEST)).
Proof.
  intros membership'.
  assert (∀ db, quota_limits db !! (membership', "security_group_count") = Some 0 →
            create db data = (db, HTTP_400_BAD_REQUEST)) as Hcount.
  { intros db1 Hlimit. unfold create.
    match goal with
    | |- context [over_quota db1 (?groups ++ [?group]) _] =>
      pose proof (over_quota_group_count db1 (groups ++ [group]) group Hlimit)
        as Hover
    end.
    simpl in Hover. rewrite Hover; [done|].
    apply elem_of_app. right. left. }
  assert (∀ db, quota_limits db !! (membership', "security_group_rule_count") = Some 0 →
            post_rules data ≠ [] →
            create db data = (db, HTTP_400_BAD_REQUEST)) as Hrules.
  { intros db1 Hlimit Hsome. unfold create.
    match goal with
    | |- context [over_quota db1 (?groups ++ [?group]) _] =>
      pose proof (over_quota_rule_count db1 (groups ++ [group]) group Hlimit)
        as Hover
    end.
    simpl in Hover. rewrite Hover; [done| |done].
    apply elem_of_app. right. left. }
  split_and!.
  - apply Hcount.
  - apply Hrules.
  - apply Hcount. simpl. by rewrite lookup_insert_eq.
  - apply Hrules. simpl. by rewrite lookup_insert_eq.
  - intros uuid' i group name' rules' Hget Hstate Hlimit Hsome.
    pose proof (get_object_Some _ _ _ _ Hget) as [Hlookup _].
    unfold update. rewrite Hget. unfold updatable, validates. rewrite Hstate. simpl.
    match goal with
    | |- context [over_quota db (<[i:=?group']> ?groups) _] =>
      pose proof (over_quota_rule_count db (<[i:=group']> groups) group' Hlimit)
        as Hover
    end.
    simpl in Hover. rewrite Hover; [done| |done].
    apply list_elem_of_insert. by eapply lookup_lt_Some.
Qed.

(** C8. A call that is accepted delays exactly one provider task, with the
    [uuid] of the security group it is about: a creation answers 201 with
    the new group stored under a [uuid] of its own and the create task
    delayed with it; an accepted update delays the update task; an accepted
    delete answers 202, with the delete task delayed and the group still
    stored, in [SYNCING]. A call that is refused writes nothing and delays
    nothing. *)
Theorem accepted_call_delays_one_task db :
  (∀ data db' (st : status),
     create db data = (db', st) →
     (st = HTTP_400_BAD_REQUEST ∧ db' = db)
     ∨ (st = HTTP_201_CREATED
        ∧ ∃ group, objects db' = (objects db ++ [group])
            ∧ (uuid group ∉ uuid <$> objects db)
            ∧ state group = CREATING
            ∧ delayed db' = delayed db ++ [(create_security_group, uuid group)]))
  ∧ (∀ (uuid' : nat) (data : UpdateData) db' (st : status),
     update db uuid' data = (db', st) →
     (st ∈ [HTTP_404_NOT_FOUND; HTTP_409_CONFLICT; HTTP_400_BAD_REQUEST] ∧ db' = db)
     ∨ (st = HTTP_200_OK
        ∧ delayed db' = delayed db ++ [(update_security_group, uuid')]))
  ∧ (∀ (uuid' : nat) db' (st : status),
     destroy db uuid' = (db', st) →
     (st ∈ [HTTP_404_NOT_FOUND; HTTP_409_CONFLICT] ∧ db' = db)
     ∨ (st = HTTP_202_ACCEPTED
        ∧ delayed db' = delayed db ++ [(delete_security_group, uuid')]
        ∧ length (objects db') = length (objects db)
        ∧ state <$> (snd <$> get_object db' uuid') = Some SYNCING)).
Proof.
  split_and!.
  - intros data db' st. apply create_inv.
  - intros uuid' data db' st
      [(-> & -> & _)|[(i & group & _ & _ & -> & ->)
        |[(i & group & _ & _ & _ & -> & ->)
         |(i & group & _ & _ & _ & -> & _ & Hdelayed)]]]%update_inv.
    + left. split; [|done]. rewrite !elem_of_cons. by left.
    + left. split; [|done]. rewrite !elem_of_cons. by right; left.
    + left. split; [|done]. rewrite !elem_of_cons. by right; right; left.
    + by right.
  - intros uuid' db' st
      [(-> & -> & _)|[(i & group & _ & _ & -> & ->)
        |(i & group & _ & _ & -> & Hlength & Hstate & Hdelayed)]]%destroy_under_inv.
    + left. split; [|done]. rewrite !elem_of_cons. by left.
    + left. split; [|done]. rewrite !elem_of_cons. by right; left.
    + by right.
Qed.

(** The repository's test of a delete in [ERRED] asserts a conflict: the gate
    that is open in [ERRED] fails it, with 202. *)
Lemma destroy_erred_conflict :
  state security_group_erred = ERRED
  ∧ get_object setUp_erred (uuid security_group) = Some (0, security_group_erred)
  ∧ destroy setUp_erred (uuid security_group) = (setUp_erred, HTTP_409_CONFLICT)
  ∧ test_security_group_can_not_be_deleted_in_unstable_state client = true
  ∧ (destroy_under deletable_as_specified setUp_erred (uuid security_group)).2
    = HTTP_202_ACCEPTED
  ∧ test_security_group_can_not_be_deleted_in_unstable_state client_as_specified
    = false.
Proof. vm_compute. by repeat split. Qed.

Lemma destroy_in_sync_only_witness :
  get_object setUp (uuid security_group) = Some (0, security_group)
  ∧ (destroy setUp (uuid security_group)).2 = HTTP_202_ACCEPTED
  ∧ destroy setUp_erred (uuid security_group) = (setUp_erred, HTTP_409_CONFLICT).
Proof.
  split; [reflexivity|]. split.
  - apply (destroy_in_sync_only setUp (uuid security_group) 0 security_group eq_refl).
    reflexivity.
  - apply (destroy_in_sync_only setUp_erred (uuid security_group) 0
             security_group_erred eq_refl).
    simpl. left.
Defined.

Lemma update_in_sync_only_witness :
  get_object setUp_erred (uuid security_group) = Some (0, security_group_erred)
  ∧ update setUp_erred (uuid security_group)
      {| patch_name := None; patch_cloud_project_membership := None;
         patch_rules := Some [] |}
    = (setUp_erred, HTTP_409_CONFLICT).
Proof.
  split; [reflexivity|].
  apply (update_in_sync_only setUp_erred (uuid security_group) 0
           security_group_erred _ eq_refl).
  simpl. right; right; left.
Defined.

End Facts.

End SecurityGroups.

(** ** Test helpers: [_cached_class_property] of
       [nodeconductor/structure/tests/helpers.py] *)

Module Helpers.

Section CachedClassProperty.

(** The field values of a row. *)
Context {Fields : Type}.

(** A model instance in memory: the row it stands for and the field values
    it holds. *)
Record Instance := {
  model : string;
  pk : nat;
  loaded : Fields
}.

(** What an access reads and writes: the attributes set on the owner class
    and the rows of the database, by model and primary key. An instance
    that is the value of a class attribute is the object the callers hold,
    so what changes it in place changes the attribute. *)
Record World := {
  class_attrs : gmap string Instance;
  rows : gmap (string * nat) Fields
}.

(** The descriptor: the method it wraps (which may create rows and read
    other cached properties, and may raise) and the method's
    [__name__]. *)
Record _cached_class_property := {
  method : World → result Instance * World;
  __name__ : string
}.

(** [self.cache_name = self.method.__name__ + '_cached'] *)
Definition cache_name (self : _cached_class_property) : string :=
  (__name__ self ++ "_cached")%string.

(** [getattr(owner_cls, name)] *)
Definition getattr (w : World) (name : string) : result Instance :=
  match class_attrs w !! name with
  | Some value => Ok value
  | None => Raise (PyError "AttributeError")
  end.

(** [setattr(owner_cls, name, value)] *)
Definition setattr (w : World) (name : string) (value : Instance) : World :=
  {| class_attrs := <[name := value]> (class_attrs w); rows := rows w |}.

(** [value.refresh_from_db()]: the instance with the field values of its
    row, or [DoesNotExist], an [ObjectDoesNotExist], when the row is gone. *)
Definition refresh_from_db (value : Instance) (w : World) : result Instance :=
  match rows w !! (model value, pk value) with
  | Some fields => Ok {| model := model value; pk := pk value; loaded := fields |}
  | None => Raise (PyError "DoesNotExist")
  end.

(** [except (AttributeError, ObjectDoesNotExist)] *)
Definition caught (e : exn) : bool :=
  match e with
  | PyError name =>
    bool_decide (name = "AttributeError" ∨ name = "DoesNotExist"
                 ∨ name = "ObjectDoesNotExist")
  | _ => false
  end.

(** [refresh_from_db] reloads the cached object in place, so the class
    attribute, which is that object, shows the reloaded field values. *)
Definition __get__ (self : _cached_class_property) (w : World)
    : result Instance * World :=
  match value ← getattr w (cache_name self); refresh_from_db value w with
  | Ok value => (Ok value, setattr w (cache_name self) value)
  | Raise e =>
    if caught e then
      match method self w with
      | (Ok value, w') => (Ok value, setattr w' (cache_name self) value)
      | (Raise e', w') => (Raise e', w')
      end
    else (Raise e, w)
  end.

End CachedClassProperty.

Arguments Instance : clear implicits.
Arguments World : clear implicits.
Arguments _cached_class_property : clear implicits.

(** *** Test doubles: two properties in the manner of [test_data], whose
    methods save a new row as a factory does *)

Module Doubles.

(** A new row of the model, under a key no row of it has. *)
Definition factory (model' : string) (fields : bool) (w : World bool)
    : result (Instance bool) * World bool :=
  let pk' := fresh (set_map (D:=gset nat) snd
                      (filter (λ key, key.1 = model') (dom (rows w)))) in
  (Ok {| model := model'; pk := pk'; loaded := fields |},
   {| class_attrs := class_attrs w;
      rows := <[(model', pk') := fields]> (rows w) |}).

(** [staff]: [factories.UserFactory(is_staff=True)] *)
Definition staff : _cached_class_property bool :=
  {| method := factory "user" true; __name__ := "staff" |}.

(** [user]: [factories.UserFactory()] *)
Definition user : _cached_class_property bool :=
  {| method := factory "user" false; __name__ := "user" |}.

Definition empty_world : World bool := {| class_attrs := ∅; rows := ∅ |}.

End Doubles.

Section CachedClassPropertyFacts.

Context {Fields : Type}.
Implicit Types (self : _cached_class_property Fields) (w : World Fields)
  (value : Instance Fields).

Lemma length_append (a b : string) :
  String.length (a ++ b)%string = String.length a + String.length b.
Proof. induction a as [|c a IH]; [done|]. simpl. by rewrite <- IH. Qed.

Lemma append_inj_r (a b suffix : string) :
  (a ++ suffix)%string = (b ++ suffix)%string → a = b.
Proof.
  revert b. induction a as [|c a IH]; intros [|c' b] Heq; [done| | |].
  - apply (f_equal String.length) in Heq.
    rewrite !length_append in Heq. simpl in Heq. lia.
  - apply (f_equal String.length) in Heq.
    rewrite !length_append in Heq. simpl in Heq. lia.
  - injection Heq as -> Heq. f_equal. by apply IH.
Qed.

Lemma setattr_same w name value :
  class_attrs w !! name = Some value → setattr w name value = w.
Proof.
  intros Hattr. destruct w as [attrs rows']. unfold setattr. simpl in *.
  f_equal. by apply insert_id.
Qed.

(** X11. After an access that returns, the class holds the returned
    instance under the property's cache name, whether the instance came
    from the cache or from the method. *)
Theorem __get___caches self w value w' :
  __get__ self w = (Ok value, w') →
  class_attrs w' !! cache_name self = Some value.
Proof.
  unfold __get__.
  destruct (mbind _ _) as [cached|e].
  - intros [= <- <-]. simpl. by rewrite lookup_insert_eq.
  - destruct (caught e); [|done].
    destruct (method self w) as [[made|e'] w1]; [|done].
    intros [= <- <-]. simpl. by rewrite lookup_insert_eq.
Qed.

(** While the row of the cached instance is there, an access does not
    run the method: it returns the cached instance with the row's current
    field values and leaves the rows and the other class attributes as they
    were. When the row is gone, or nothing is cached, the method is run and
    what it returns replaces the cache. *)
Theorem __get___hit_or_miss self w :
  match class_attrs w !! cache_name self with
  | Some cached =>
    match rows w !! (model cached, pk cached) with
    | Some fields =>
      let value := {| model := model cached; pk := pk cached; loaded := fields |} in
      __get__ self w = (Ok value, setattr w (cache_name self) value)
    | None =>
      __get__ self w =
      match method self w with
      | (Ok value, w') => (Ok value, setattr w' (cache_name self) value)
      | (Raise e, w') => (Raise e, w')
      end
    end
  | None =>
    __get__ self w =
    match method self w with
    | (Ok value, w') => (Ok value, setattr w' (cache_name self) value)
    | (Raise e, w') => (Raise e, w')
    end
  end.
Proof.
  unfold __get__, getattr, refresh_from_db.
  destruct (class_attrs w !! cache_name self) as [cached|]; simpl; [|done].
  by destruct (rows w !! (model cached, pk cached)).
Qed.

(** X12. An access that follows one that returned an instance as its row
    holds it (as every instance that came from the cache is, and every
    instance a method has just saved) returns the same instance and changes
    nothing: neither the rows nor any class attribute, and the method is not
    run again. *)
Theorem __get___again self w value w' :
  __get__ self w = (Ok value, w') →
  rows w' !! (model value, pk value) = Some (loaded value) →
  __get__ self w' = (Ok value, w').
Proof.
  intros Hget Hrow. apply __get___caches in Hget.
  pose proof (__get___hit_or_miss self w') as Hagain.
  rewrite Hget, Hrow in Hagain. rewrite Hagain.
  destruct value as [m k f]. simpl. f_equal. by apply setattr_same.
Qed.

(** X13. Properties whose methods have different names use different cache
    names, and an access to one leaves the cache of the other as it was,
    provided its method does not write there itself. *)
Theorem __get___other_cache self (other : _cached_class_property Fields) w :
  __name__ self ≠ __name__ other →
  (∀ w0, class_attrs (method self w0).2 !! cache_name other
         = class_attrs w0 !! cache_name other) →
  (cache_name self = cache_name other → False)
  ∧ class_attrs (__get__ self w).2 !! cache_name other
    = class_attrs w !! cache_name other.
Proof.
  intros Hne Hframe.
  assert (cache_name self ≠ cache_name other) as Hne'.
  { unfold cache_name. intros Heq. by apply append_inj_r in Heq. }
  split; [done|]. unfold __get__.
  destruct (mbind _ _) as [cached|e]; simpl.
  - by rewrite lookup_insert_ne.
  - destruct (caught e); [|done]. specialize (Hframe w).
    destruct (method self w) as [[made|e'] w1]; simpl in *; [|done].
    by rewrite lookup_insert_ne.
Qed.

End CachedClassPropertyFacts.

Section Examples.

Import Doubles.

Lemma __get___again_witness :
  __get__ staff (__get__ staff empty_world).2
  = __get__ staff empty_world.
Proof.
  destruct (__get__ staff empty_world) as [[value|e] w'] eqn:Hget.
  - simpl. apply (__get___again staff empty_world value w' Hget).
    vm_compute in Hget. by injection Hget as <- <-.
  - vm_compute in Hget. discriminate Hget.
Defined.

Lemma __get___caches_witness :
  class_attrs (__get__ staff empty_world).2 !! "staff_cached"
  = Some {| model := "user"; pk := 0; loaded := true |}.
Proof.
  apply (__get___caches staff empty_world _ (__get__ staff empty_world).2).
  reflexivity.
Defined.

Lemma __get___other_cache_witness :
  (cache_name staff = cache_name user → False)
  ∧ class_attrs (__get__ staff (__get__ user empty_world).2).2 !! cache_name user
    = class_attrs (__get__ user empty_world).2 !! cache_name user.
Proof.
  apply (__get___other_cache staff user); [discriminate|reflexivity].
Defined.

(** The second access to [user] after [staff] makes no third row: both
    instances are rows of the user model, under different keys. *)
Example staff_then_user :
  let w := (__get__ user (__get__ staff empty_world).2).2 in
  (__get__ staff w).1 = Ok {| model := "user"; pk := 0; loaded := true |}
  ∧ (__get__ user w).1 = Ok {| model := "user"; pk := 1; loaded := false |}
  ∧ size (rows (__get__ user (__get__ staff w).2).2) = 2.
Proof. by vm_compute. Qed.

End Examples.


End Helpers.

(** ** Price editing views: [nodeconductor/cost_tracking/views.py] *)

Module Views.

Import Invitations (CustomerRoleType, OWNER).

(** [s.split('__')]: the pieces between the occurrences of the separator,
    found from the left. *)
Fixpoint split_from (piece s : string) : list string :=
  match s with
  | "" => [piece]
  | String c rest =>
    match rest with
    | String c' rest' =>
      if bool_decide (String c (String c' "") = "__")
      then piece :: split_from "" rest'
      else split_from (piece ++ String c "")%string rest
    | "" => split_from (piece ++ String c "")%string rest
    end
  end.

Definition split (s : string) : list string := split_from "" s.

(** [reduce(function, sequence, initial)] *)
Fixpoint reduce {A B} (function : A → B → result A) (sequence : list B)
    (initial : A) : result A :=
  match sequence with
  | [] => Ok initial
  | x :: sequence => a ← function initial x; reduce function sequence a
  end.

(** What the views ask of the structure models: attribute access, the
    [Permissions.customer_path] of a scope, [has_user] of a customer and
    [is_staff] of a user. *)
Class Structure (Obj User : Type) := {
  getattr : Obj → string → result Obj;
  customer_path : Obj → string;
  has_user : Obj → User → CustomerRoleType → result bool;
  is_staff : User → bool
}.

Record Request (User Data : Type) := {
  user : User;
  data : Data
}.
Arguments user {User Data} _.
Arguments data {User Data} _.

(** A view at work on a request: [self.request] and [self.action]. *)
Record View (User Data : Type) := {
  request : Request User Data;
  action : string
}.
Arguments request {User Data} _.
Arguments action {User Data} _.

(** [serializer.validated_data], a dict: a key is there or not. *)
Record validated_data (Obj Number : Type) := {
  vd_scope : option Obj;
  vd_threshold : option Number;
  vd_limit : option Number;
  vd_service : option Obj
}.
Arguments vd_scope {Obj Number} _.
Arguments vd_threshold {Obj Number} _.
Arguments vd_limit {Obj Number} _.
Arguments vd_service {Obj Number} _.

(** [d[key]] *)
Definition getitem {A} (field : option A) (key : string) : result A :=
  match field with
  | Some value => Ok value
  | None => Raise (KeyError key)
  end.

Record PriceEstimate (Obj : Type) := {
  is_manually_input : bool;
  scope : Obj
}.
Arguments is_manually_input {Obj} _.
Arguments scope {Obj} _.

Record PriceListItem (Obj : Type) := {
  service : Obj
}.
Arguments service {Obj} _.

Inductive SerializerClass :=
  | PriceEstimateSerializer
  | PriceEstimateThresholdSerializer
  | PriceEstimateLimitSerializer.

(** The keyword arguments of [create_or_update]. *)
Inductive kwargs (Number : Type) :=
  | threshold_kw (threshold : Number)
  | limit_kw (limit : Number).
Arguments threshold_kw {Number} _.
Arguments limit_kw {Number} _.

Record Response := {
  detail : string;
  status : nat
}.

Definition HTTP_200_OK : nat := 200.

(** [exceptions.PermissionDenied] and [exceptions.MethodNotAllowed]; the
    detail message is not kept. *)
Definition PermissionDenied : exn := PyError "PermissionDenied".
Definition MethodNotAllowed : exn := PyError "MethodNotAllowed".

Module PriceEditPermissionMixin.

Definition can_user_modify_price_object `{Structure Obj User} {Data}
    (self : View User Data) (scope : Obj) : result bool :=
  if is_staff (user (request self)) then Ok true
  else
    customer ← reduce getattr (split (customer_path scope)) scope;
    has_user customer (user (request self)) OWNER ≫= λ owner : bool,
    if owner then Ok true else Ok false.

End PriceEditPermissionMixin.

Import PriceEditPermissionMixin.

Module PriceEstimateViewSet.

Definition serializer_class : SerializerClass := PriceEstimateSerializer.

Definition get_serializer_class {User Data} (self : View User Data)
    : SerializerClass :=
  if bool_decide (action self = "threshold")
  then PriceEstimateThresholdSerializer
  else if bool_decide (action self = "limit")
  then PriceEstimateLimitSerializer
  else serializer_class.

(** [serializer] stands for what validation left in the serializer, and
    [super_perform_create] for the save of the parent class. *)
Definition perform_create `{Structure Obj User} {Data Number DB}
    (self : View User Data) (serializer : validated_data Obj Number)
    (super_perform_create : DB → result DB) (db : DB) : result DB :=
  scope ← getitem (vd_scope serializer) "scope";
  allowed ← can_user_modify_price_object self scope;
  if negb allowed then Raise PermissionDenied
  else super_perform_create db.

(** [get_object] stands for the outcome of [self.get_object()], which is
    called for the three actions only, and [super_initial] for the checks
    of the parent class. *)
Definition initial `{Structure Obj User} {Data}
    (self : View User Data) (get_object : result (PriceEstimate Obj))
    (super_initial : result ()) : result () :=
  if bool_decide (action self ∈ ["partial_update"; "destroy"; "update"]) then
    price_estimate ← get_object;
    if negb (is_manually_input price_estimate) then Raise MethodNotAllowed
    else
      allowed ← can_user_modify_price_object self (scope price_estimate);
      if negb allowed then Raise PermissionDenied
      else super_initial
  else super_initial.

(** [is_valid] is the validation of the serializer classes, with
    [raise_exception=True], and [create_or_update] the manager's method. *)
Definition threshold `{Structure Obj User} {Data Number DB}
    (is_valid : SerializerClass → Data → result (validated_data Obj Number))
    (create_or_update : Obj → kwargs Number → DB → result DB)
    (self : View User Data) (db : DB) : result (Response * DB) :=
  serializer ← is_valid (get_serializer_class self) (data (request self));
  threshold ← getitem (vd_threshold serializer) "threshold";
  scope ← getitem (vd_scope serializer) "scope";
  allowed ← can_user_modify_price_object self scope;
  if negb allowed then Raise PermissionDenied
  else
    db' ← create_or_update scope (threshold_kw threshold) db;
    Ok ({| detail := "Threshold for price estimate is updated";
           status := HTTP_200_OK |}, db').

Definition limit `{Structure Obj User} {Data Number DB}
    (is_valid : SerializerClass → Data → result (validated_data Obj Number))
    (create_or_update : Obj → kwargs Number → DB → result DB)
    (self : View User Data) (db : DB) : result (Response * DB) :=
  serializer ← is_valid (get_serializer_class self) (data (request self));
  limit ← getitem (vd_limit serializer) "limit";
  scope ← getitem (vd_scope serializer) "scope";
  allowed ← can_user_modify_price_object self scope;
  if negb allowed then Raise PermissionDenied
  else
    db' ← create_or_update scope (limit_kw limit) db;
    Ok ({| detail := "Limit for price estimate is updated";
           status := HTTP_200_OK |}, db').

End PriceEstimateViewSet.

Module PriceListItemViewSet.

Definition initial `{Structure Obj User} {Data}
    (self : View User Data) (get_object : result (PriceListItem Obj))
    (super_initial : result ()) : result () :=
  if bool_decide (action self ∈ ["partial_update"; "update"; "destroy"]) then
    price_list_item ← get_object;
    allowed ← can_user_modify_price_object self (service price_list_item);
    if negb allowed then Raise PermissionDenied
    else super_initial
  else super_initial.

Definition perform_create `{Structure Obj User} {Data Number DB}
    (self : View User Data) (serializer : validated_data Obj Number)
    (super_perform_create : DB → result DB) (db : DB) : result DB :=
  service ← getitem (vd_service serializer) "service";
  allowed ← can_user_modify_price_object self service;
  if negb allowed then Raise PermissionDenied
  else super_perform_create db.

End PriceListItemViewSet.

(** The user is staff, or an owner of the customer that the customer path
    of the scope leads to. *)
Definition may_modify `{Structure Obj User} (user : User) (scope : Obj) : Prop :=
  is_staff user = true
  ∨ ∃ customer,
      reduce getattr (split (customer_path scope)) scope = Ok customer
      ∧ has_user customer user OWNER = Ok true.

(** *** Test doubles: customers with their owners, and objects that reach
    their customer through named attributes; user 0 is staff *)

Module Doubles.

Inductive Obj :=
  | customer (owners : list nat)
  | child (attr : string) (parent : Obj)
  | detached.

Fixpoint path (o : Obj) : string :=
  match o with
  | customer _ => "self"
  | child attr (customer _) => attr
  | child attr parent => (attr ++ "__" ++ path parent)%string
  | detached => "customer"
  end.

#[global] Instance structure : Structure Obj nat := {|
  getattr o name :=
    match o with
    | customer _ =>
      if bool_decide (name = "self") then Ok o
      else Raise (PyError "AttributeError")
    | child attr parent =>
      if bool_decide (name = attr) then Ok parent
      else Raise (PyError "AttributeError")
    | detached => Raise (PyError "AttributeError")
    end;
  customer_path := path;
  has_user o user _ :=
    match o with
    | customer owners => Ok (bool_decide (user ∈ owners))
    | _ => Raise (PyError "AttributeError")
    end;
  is_staff user := bool_decide (user = 0)
|}.

Definition resource : Obj :=
  child "service_project_link" (child "project" (customer [1; 2])).

Definition view (user' : nat) (action' : string) : View nat () :=
  {| request := {| user := user'; data := () |}; action := action' |}.

Definition is_valid (_ : SerializerClass) (_ : ())
    : result (validated_data Obj nat) :=
  Ok {| vd_scope := Some resource; vd_threshold := Some 100;
        vd_limit := Some 500; vd_service := None |}.

(** The database: what was written, the latest first. *)
Definition create_or_update (scope' : Obj) (kw : kwargs nat)
    (db : list (Obj * kwargs nat)) : result (list (Obj * kwargs nat)) :=
  Ok ((scope', kw) :: db).

End Doubles.

Section Facts.

Context `{Structure Obj User} {Data Number DB : Type}.
Implicit Types (self : View User Data) (scope : Obj)
  (serializer : validated_data Obj Number).

Lemma can_user_modify_price_object_true self scope :
  can_user_modify_price_object self scope = Ok true
  ↔ may_modify (user (request self)) scope.
Proof.
  unfold can_user_modify_price_object, may_modify.
  destruct (is_staff (user (request self))) eqn:Hstaff.
  - split; [by left|done].
  - split.
    + intros Hok. right.
      destruct (reduce getattr (split (customer_path scope)) scope)
        as [customer|e] eqn:Hpath; simpl in Hok; [|done].
      destruct (has_user customer (user (request self)) OWNER)
        as [[]|e] eqn:Hown; simpl in Hok; try done.
      by exists customer.
    + intros [?|(customer & -> & Hown)]; [done|]. simpl. by rewrite Hown.
Qed.

(** The check that every writing entry point makes before it goes on. *)
Lemma permission_check {A} self scope (rest : result A) (a : A) :
  (allowed ← can_user_modify_price_object self scope;
   if negb allowed then Raise PermissionDenied else rest) = Ok a
  ↔ may_modify (user (request self)) scope ∧ rest = Ok a.
Proof.
  rewrite <- can_user_modify_price_object_true.
  destruct (can_user_modify_price_object self scope) as [[]|e]; simpl;
    split; try done; by intros [? ?].
Qed.

(** [can_user_modify_price_object] in full: staff are let through
    without a look at the scope, so also for a scope whose customer path
    leads nowhere; for anyone else the answer is that of [has_user] on the
    customer the path leads to, and an exception on the way there, or of
    [has_user], comes out as it is. *)
Theorem can_user_modify_price_object_cases self scope :
  let user := user (request self) in
  let customer := reduce getattr (split (customer_path scope)) scope in
  (is_staff user = true ∧ can_user_modify_price_object self scope = Ok true)
  ∨ (is_staff user = false
     ∧ can_user_modify_price_object self scope
       = (customer ≫= λ customer, has_user customer user OWNER)).
Proof.
  unfold can_user_modify_price_object. simpl.
  destruct (is_staff (user (request self))); [by left|right].
  split; [done|].
  destruct (reduce getattr (split (customer_path scope)) scope)
    as [customer|e]; simpl; [|done].
  by destruct (has_user customer (user (request self)) OWNER) as [[]|e].
Qed.

(** X14. Updating or deleting a price estimate gets past [initial] exactly
    when the estimate is found, is manually input, the user is staff or owns
    the customer of its scope, and the parent's checks pass; for an
    auto-calculated estimate the answer is [MethodNotAllowed] whoever asks,
    staff included. Other actions go straight to the parent's checks. *)
Theorem price_estimate_initial self get_object super_initial :
  if bool_decide (action self ∈ ["partial_update"; "destroy"; "update"]) then
    (PriceEstimateViewSet.initial self get_object super_initial = Ok ()
     ↔ ∃ price_estimate,
         get_object = Ok price_estimate
         ∧ is_manually_input price_estimate = true
         ∧ may_modify (user (request self)) (scope price_estimate)
         ∧ super_initial = Ok ())
    ∧ (∀ price_estimate,
         get_object = Ok price_estimate →
         is_manually_input price_estimate = false →
         PriceEstimateViewSet.initial self get_object super_initial
         = Raise MethodNotAllowed)
  else PriceEstimateViewSet.initial self get_object super_initial = super_initial.
Proof.
  unfold PriceEstimateViewSet.initial. case_bool_decide as Haction; [|done].
  split.
  - destruct get_object as [price_estimate|e]; simpl.
    + destruct (is_manually_input price_estimate) eqn:Hmanual; simpl.
      * rewrite permission_check. split.
        -- intros [Hmay Hsuper]. by exists price_estimate.
        -- by intros (? & [= <-] & _ & Hmay & Hsuper).
      * split; [done|]. intros (? & [= <-] & Hmanual' & _). congruence.
    + split; [done|]. by intros (? & ? & _).
  - intros price_estimate -> Hmanual. simpl. by rewrite Hmanual.
Qed.

(** X15. The three writing entry points of the price estimate views write
    only for staff and for owners of the customer of the validated scope:
    [perform_create] reaches the parent's save, and [threshold] and [limit]
    reach [create_or_update], exactly when the scope is there and the user
    may modify it; the database they return is the one that call
    returned. *)
Theorem price_estimate_writes
    (is_valid : SerializerClass → Data → result (validated_data Obj Number))
    (create_or_update : Obj → kwargs Number → DB → result DB) self serializer
    (super_perform_create : DB → result DB) (db db' : DB) response :
  (PriceEstimateViewSet.perform_create self serializer super_perform_create db
   = Ok db'
   ↔ ∃ scope,
       vd_scope serializer = Some scope
       ∧ may_modify (user (request self)) scope
       ∧ super_perform_create db = Ok db')
  ∧ (PriceEstimateViewSet.threshold is_valid create_or_update self db
     = Ok (response, db')
     ↔ ∃ validated scope threshold,
         is_valid (PriceEstimateViewSet.get_serializer_class self)
           (data (request self)) = Ok validated
         ∧ vd_scope validated = Some scope
         ∧ vd_threshold validated = Some threshold
         ∧ may_modify (user (request self)) scope
         ∧ create_or_update scope (threshold_kw threshold) db = Ok db'
         ∧ response = {| detail := "Threshold for price estimate is updated";
                         status := 200 |})
  ∧ (PriceEstimateViewSet.limit is_valid create_or_update self db
     = Ok (response, db')
     ↔ ∃ validated scope limit,
         is_valid (PriceEstimateViewSet.get_serializer_class self)
           (data (request self)) = Ok validated
         ∧ vd_scope validated = Some scope
         ∧ vd_limit validated = Some limit
         ∧ may_modify (user (request self)) scope
         ∧ create_or_update scope (limit_kw limit) db = Ok db'
         ∧ response = {| detail := "Limit for price estimate is updated";
                         status := 200 |}).
Proof.
  split_and!.
  - unfold PriceEstimateViewSet.perform_create.
    destruct (vd_scope serializer) as [scope|]; simpl.
    + rewrite permission_check. split.
      * intros [? ?]. by exists scope.
      * by intros (? & [= <-] & ? & ?).
    + split; [done|]. by intros (? & ? & _).
  - unfold PriceEstimateViewSet.threshold.
    destruct (is_valid _ _) as [validated|e]; simpl.
    + destruct (vd_threshold validated) as [threshold|] eqn:Hthreshold; simpl.
      * destruct (vd_scope validated) as [scope|] eqn:Hscope; simpl.
        -- rewrite permission_check. split.
           ++ intros [Hmay Hwrite]. exists validated, scope, threshold.
              destruct (create_or_update scope (threshold_kw threshold) db)
                as [db1|e]; simpl in Hwrite; [|done].
              injection Hwrite as <- <-. by rewrite Hthreshold, Hscope.
           ++ intros (? & ? & ? & [= <-] & Hscope' & Hthreshold' & Hmay
                      & Hwrite & ->).
              rewrite Hscope in Hscope'. rewrite Hthreshold in Hthreshold'.
              simplify_eq. split; [done|]. by rewrite Hwrite.
        -- split; [done|]. intros (? & ? & ? & [= <-] & ? & _). congruence.
      * split; [done|]. intros (? & ? & ? & [= <-] & _ & ? & _). congruence.
    + split; [done|]. by intros (? & ? & ? & ? & _).
  - unfold PriceEstimateViewSet.limit.
    destruct (is_valid _ _) as [validated|e]; simpl.
    + destruct (vd_limit validated) as [limit|] eqn:Hlimit; simpl.
      * destruct (vd_scope validated) as [scope|] eqn:Hscope; simpl.
        -- rewrite permission_check. split.
           ++ intros [Hmay Hwrite]. exists validated, scope, limit.
              destruct (create_or_update scope (limit_kw limit) db)
                as [db1|e]; simpl in Hwrite; [|done].
              injection Hwrite as <- <-. by rewrite Hlimit, Hscope.
           ++ intros (? & ? & ? & [= <-] & Hscope' & Hlimit' & Hmay
                      & Hwrite & ->).
              rewrite Hscope in Hscope'. rewrite Hlimit in Hlimit'.
              simplify_eq. split; [done|]. by rewrite Hwrite.
        -- split; [done|]. intros (? & ? & ? & [= <-] & ? & _). congruence.
      * split; [done|]. intros (? & ? & ? & [= <-] & _ & ? & _). congruence.
    + split; [done|]. by intros (? & ? & ? & ? & _).
Qed.

(** X16. A price list item is updated, deleted or created only by staff
    and by owners of the customer of its service: [initial] passes an update
    or a delete on, and [perform_create] reaches the parent's save, exactly
    when the user may modify the service. *)
Theorem price_list_item_writes self get_object super_initial serializer
    (super_perform_create : DB → result DB) (db db' : DB) :
  (if bool_decide (action self ∈ ["partial_update"; "update"; "destroy"]) then
     PriceListItemViewSet.initial self get_object super_initial = Ok ()
     ↔ ∃ price_list_item,
         get_object = Ok price_list_item
         ∧ may_modify (user (request self)) (service price_list_item)
         ∧ super_initial = Ok ()
   else PriceListItemViewSet.initial self get_object super_initial
        = super_initial)
  ∧ (PriceListItemViewSet.perform_create self serializer super_perform_create db
     = Ok db'
     ↔ ∃ service,
         vd_service serializer = Some service
         ∧ may_modify (user (request self)) service
         ∧ super_perform_create db = Ok db').
Proof.
  split.
  - unfold PriceListItemViewSet.initial. case_bool_decide as Haction; [|done].
    destruct get_object as [price_list_item|e]; simpl.
    + rewrite permission_check. split.
      * intros [? ?]. by exists price_list_item.
      * by intros (? & [= <-] & ? & ?).
    + split; [done|]. by intros (? & ? & _).
  - unfold PriceListItemViewSet.perform_create.
    destruct (vd_service serializer) as [service'|]; simpl.
    + rewrite permission_check. split.
      * intros [? ?]. by exists service'.
      * by intros (? & [= <-] & ? & ?).
    + split; [done|]. by intros (? & ? & _).
Qed.

End Facts.

Section Examples.

Import Doubles.

(** The customer path of the resource is split at the double underscores
    and followed attribute by attribute. *)
Example resource_customer :
  split (customer_path resource) = ["service_project_link"; "project"]
  ∧ reduce getattr (split (customer_path resource)) resource
    = Ok (customer [1; 2]).
Proof. by vm_compute. Qed.

Example split_underscores :
  split "a___b" = ["a"; "_b"] ∧ split "" = [""] ∧ split "a__" = ["a"; ""].
Proof. by vm_compute. Qed.

(** An owner sets the threshold of the resource; a stranger is refused and
    staff are let through; a scope without a customer raises for the owner
    and not for staff. *)
Example threshold_by_user :
  PriceEstimateViewSet.threshold is_valid create_or_update (view 1 "threshold") []
  = Ok ({| detail := "Threshold for price estimate is updated"; status := 200 |},
        [(resource, threshold_kw 100)])
  ∧ PriceEstimateViewSet.threshold is_valid create_or_update (view 3 "threshold") []
    = Raise PermissionDenied
  ∧ PriceEstimateViewSet.limit is_valid create_or_update (view 0 "limit") []
    = Ok ({| detail := "Limit for price estimate is updated"; status := 200 |},
          [(resource, limit_kw 500)])
  ∧ can_user_modify_price_object (view 1 "update") detached
    = Raise (PyError "AttributeError")
  ∧ can_user_modify_price_object (view 0 "update") detached = Ok true.
Proof. by vm_compute. Qed.

(** Staff cannot delete an auto-calculated estimate, and an owner can
    delete a manual one. *)
Example initial_destroy :
  PriceEstimateViewSet.initial (view 0 "destroy")
    (Ok {| is_manually_input := false; scope := resource |}) (Ok ())
  = Raise MethodNotAllowed
  ∧ PriceEstimateViewSet.initial (view 2 "destroy")
      (Ok {| is_manually_input := true; scope := resource |}) (Ok ())
    = Ok ()
  ∧ PriceEstimateViewSet.initial (view 3 "destroy")
      (Ok {| is_manually_input := true; scope := resource |}) (Ok ())
    = Raise PermissionDenied.
Proof. by vm_compute. Qed.

End Examples.

End Views.
